(** * The provider gateway of routes/proxy.js

    A shallow embedding of the request-forwarding gateway: the answer
    normaliser [extractAnswer], the provider caller [callProvider] with its
    retry loop and the three request shapes, and the [/chat] handler with
    its cache and its ordered fallback over providers.

    Strings are byte strings holding UTF-8 text, and the query text and
    the provider list of a request are strings.  The network, the clock
    and the timers are an explicit environment ([Env]); a run of the
    program threads the environment state and the cache, and returns the
    list of effects it performed, in order.  No step of the program throws
    past the [try] that encloses it: a failed network call is the only
    exception, and [callProvider] catches it. *)

From Stdlib Require Import ZArith Ascii.
From stdpp Require Import base option list strings pretty gmap.

Local Open Scope Z_scope.
Set Warnings "-register-all".

(** ** JavaScript string operations used by the program *)

Module JSString.

(** [s.startsWith(p)] *)
Fixpoint startsWith (s p : string) {struct p} : bool :=
  match p, s with
  | EmptyString, _ => true
  | String _ _, EmptyString => false
  | String c p', String d s' => Ascii.eqb c d && startsWith s' p'
  end.

(** [s.includes(p)] *)
Fixpoint includes (s p : string) : bool :=
  startsWith s p ||
  match s with
  | EmptyString => false
  | String _ s' => includes s' p
  end.

(** [s.endsWith(p)]: some suffix of [s] is [p]. *)
Fixpoint endsWith (s p : string) : bool :=
  String.eqb s p ||
  match s with
  | EmptyString => false
  | String _ s' => endsWith s' p
  end.

(** [s.split(c)[0]]: the part of [s] before the first [c]. *)
Fixpoint split_head (c : ascii) (s : string) : string :=
  match s with
  | EmptyString => EmptyString
  | String d s' => if Ascii.eqb d c then EmptyString else String d (split_head c s')
  end.

(** [s.split(c)]: the pieces of [s] between the occurrences of [c]. *)
Fixpoint split (c : ascii) (s : string) : list string :=
  match s with
  | EmptyString => [EmptyString]
  | String d s' =>
      if Ascii.eqb d c then EmptyString :: split c s'
      else match split c s' with
           | piece :: pieces => String d piece :: pieces
           | [] => [String d EmptyString]
           end
  end.

(** Number of bytes. *)
Definition len (s : string) : nat := String.length s.

Fixpoint drop (n : nat) (s : string) : string :=
  match n, s with
  | O, _ => s
  | S _, EmptyString => EmptyString
  | S n', String _ s' => drop n' s'
  end.

(** The longest run of characters other than [&], as [[^&]*] matches it,
    is skipped. *)
Fixpoint skip_value (s : string) : string :=
  match s with
  | EmptyString => EmptyString
  | String c s' => if Ascii.eqb c "&" then s else skip_value s'
  end.

(** [s.replace(/q=[^&]*/, r)] for a replacement [r] without [$]: the
    leftmost [q=] and the characters after it up to the next [&] are
    replaced by [r]; a string without [q=] is returned as it is. *)
Fixpoint replace_q_value (s r : string) : string :=
  match s with
  | EmptyString => EmptyString
  | String c s' =>
      if startsWith s "q=" then r +:+ skip_value (drop 2 s)
      else String c (replace_q_value s' r)
  end.

(** Number of positions of [s] at which [p] occurs. *)
Fixpoint occurrences (s p : string) : nat :=
  ((if startsWith s p then 1 else 0) +
   match s with
   | EmptyString => 0
   | String _ s' => occurrences s' p
   end)%nat.

Definition hex_digit (n : N) : ascii :=
  if (n <? 10)%N then ascii_of_N (48 + n) else ascii_of_N (55 + n).

(** The characters [encodeURIComponent] leaves as they are:
    [A-Z a-z 0-9 - _ . ! ~ * ' ( )]. *)
Definition uri_unreserved (c : ascii) : bool :=
  let n := N_of_ascii c in
  ((65 <=? n) && (n <=? 90) || (97 <=? n) && (n <=? 122) ||
   (48 <=? n) && (n <=? 57) ||
   (n =? 45) || (n =? 95) || (n =? 46) || (n =? 33) || (n =? 126) ||
   (n =? 42) || (n =? 39) || (n =? 40) || (n =? 41))%N.

(** [encodeURIComponent(s)] on UTF-8 text: every byte that is not
    unreserved becomes [%XX], in upper-case hexadecimal. *)
Fixpoint encodeURIComponent (s : string) : string :=
  match s with
  | EmptyString => EmptyString
  | String c s' =>
      if uri_unreserved c then String c (encodeURIComponent s')
      else
        let n := N_of_ascii c in
        String "%" (String (hex_digit (n / 16)) (String (hex_digit (n mod 16))
          (encodeURIComponent s')))
  end.

Definition bytes (l : list N) : string :=
  fold_right (fun n s => String (ascii_of_N n) s) EmptyString l.

(** WhiteSpace and LineTerminator of ECMAScript, in UTF-8. *)
Definition whitespace : list string :=
  map bytes
    [ [9]; [10]; [11]; [12]; [13]; [32]; [194; 160]; [225; 154; 128];
      [226; 128; 128]; [226; 128; 129]; [226; 128; 130]; [226; 128; 131];
      [226; 128; 132]; [226; 128; 133]; [226; 128; 134]; [226; 128; 135];
      [226; 128; 136]; [226; 128; 137]; [226; 128; 138]; [226; 128; 168];
      [226; 128; 169]; [226; 128; 175]; [226; 129; 159]; [227; 128; 128];
      [239; 187; 191] ]%N.

(** Leading characters of [ws] are dropped; [n] bounds the number of
    characters dropped and [trimStart] passes the length of its argument. *)
Fixpoint strip (ws : list string) (n : nat) (s : string) : string :=
  match n with
  | O => s
  | S n' =>
      match List.find (startsWith s) ws with
      | Some w => strip ws n' (drop (len w) s)
      | None => s
      end
  end.

Definition trimStart (s : string) : string := strip whitespace (len s) s.

Definition trimEnd (s : string) : string :=
  String.rev (strip (map String.rev whitespace) (len s) (String.rev s)).

(** [s.trim()] *)
Definition trim (s : string) : string := trimEnd (trimStart s).

(** A string is truthy when it is not empty. *)
Definition nonempty (s : string) : bool :=
  match s with EmptyString => false | String _ _ => true end.

End JSString.

Import JSString.

(** ** JavaScript values *)

(** What the program observes of a JavaScript number: whether it is falsy
    ([+0], [-0] and [NaN]) and the text [JSON.stringify] prints for it,
    which is never empty. *)
Class JSNumber (Num : Type) := {
  num_falsy : Num -> bool;
  num_text : Num -> string;
  num_text_nonempty : forall n, nonempty (num_text n) = true
}.

(** A decoded response payload, and any value reached from one.  The fields
    of an object are listed in enumeration order, and [lookup_field] reads
    the first field of a name. *)
Inductive value (Num : Type) : Type :=
| JUndefined
| JNull
| JBool (b : bool)
| JNumber (n : Num)
| JString (s : string)
| JArray (items : list (value Num))
| JObject (fields : list (string * value Num)).

Arguments JUndefined {Num}.
Arguments JNull {Num}.
Arguments JBool {Num} b.
Arguments JNumber {Num} n.
Arguments JString {Num} s.
Arguments JArray {Num} items.
Arguments JObject {Num} fields.

Section Values.
Context {Num : Type} {JN : JSNumber Num}.

(** [!!v] *)
Definition truthy (v : value Num) : bool :=
  match v with
  | JUndefined | JNull => false
  | JBool b => b
  | JNumber n => negb (num_falsy n)
  | JString s => nonempty s
  | JArray _ | JObject _ => true
  end.

Fixpoint lookup_field (fields : list (string * value Num)) (k : string) : value Num :=
  match fields with
  | [] => JUndefined
  | (k', v) :: rest => if String.eqb k' k then v else lookup_field rest k
  end.

(** [v.k] for a name [k] that no prototype defines ([result], [answer],
    [output], [choices], [text], [message], [content]), on a value [v]
    other than [null] and [undefined]. *)
Definition prop (v : value Num) (k : string) : value Num :=
  match v with
  | JObject fields => lookup_field fields k
  | _ => JUndefined
  end.

(** [v[0]], on a value other than [null] and [undefined]: the first
    element of an array, the field [0] of an object, the first character
    of a string. *)
Definition index0 (v : value Num) : value Num :=
  match v with
  | JArray (x :: _) => x
  | JObject fields => lookup_field fields "0"
  | JString (String c _) => JString (String c EmptyString)
  | _ => JUndefined
  end.

Definition nullish (v : value Num) : bool :=
  match v with JUndefined | JNull => true | _ => false end.

(** [v?.k] *)
Definition opt_prop (v : value Num) (k : string) : value Num :=
  if nullish v then JUndefined else prop v k.

(** [v?.[0]] *)
Definition opt_index0 (v : value Num) : value Num :=
  if nullish v then JUndefined else index0 v.

(** *** [JSON.stringify] *)

Definition dquote : ascii := ascii_of_N 34.

Definition hex_lower (n : N) : ascii :=
  if (n <? 10)%N then ascii_of_N (48 + n) else ascii_of_N (87 + n).

Definition escape_char (c : ascii) : string :=
  let n := N_of_ascii c in
  if (n =? 34)%N then String "\" (String dquote EmptyString)
  else if (n =? 92)%N then "\\"
  else if (n =? 8)%N then "\b"
  else if (n =? 12)%N then "\f"
  else if (n =? 10)%N then "\n"
  else if (n =? 13)%N then "\r"
  else if (n =? 9)%N then "\t"
  else if (n <? 32)%N then
    "\u00" +:+ String (hex_lower (n / 16)) (String (hex_lower (n mod 16)) EmptyString)
  else String c EmptyString.

Fixpoint escape (s : string) : string :=
  match s with
  | EmptyString => EmptyString
  | String c s' => escape_char c +:+ escape s'
  end.

Definition quote (s : string) : string :=
  String dquote (escape s +:+ String dquote EmptyString).

Fixpoint join (sep : string) (l : list string) : string :=
  match l with
  | [] => EmptyString
  | [x] => x
  | x :: rest => x +:+ sep +:+ join sep rest
  end.

(** The text of a value inside an array or an object; [None] for
    [undefined], which an array prints as [null] and an object leaves
    out with its key. *)
Fixpoint serialize (v : value Num) : option string :=
  match v with
  | JUndefined => None
  | JNull => Some "null"
  | JBool true => Some "true"
  | JBool false => Some "false"
  | JNumber n => Some (num_text n)
  | JString s => Some (quote s)
  | JArray items =>
      let fix elements (l : list (value Num)) : list string :=
        match l with
        | [] => []
        | x :: rest => default "null" (serialize x) :: elements rest
        end in
      Some ("[" +:+ join "," (elements items) +:+ "]")
  | JObject fields =>
      let fix members (l : list (string * value Num)) : list string :=
        match l with
        | [] => []
        | (k, x) :: rest =>
            match serialize x with
            | Some t => (quote k +:+ ":" +:+ t) :: members rest
            | None => members rest
            end
        end in
      Some ("{" +:+ join "," (members fields) +:+ "}")
  end.

(** [JSON.stringify(v)]: a string, or [undefined] for [undefined]. *)
Definition JSON_stringify (v : value Num) : value Num :=
  match serialize v with
  | Some t => JString t
  | None => JUndefined
  end.

(** ** The answer normaliser (proxy.js, [extractAnswer]) *)

Definition is_string (v : value Num) : bool :=
  match v with JString _ => true | _ => false end.

Definition extractAnswer (data : value Num) : value Num :=
  if negb (truthy data) then JNull
  else if is_string data then data
  else if truthy (prop data "result") then prop data "result"
  else if truthy (prop data "answer") then prop data "answer"
  else if truthy (prop data "output") then prop data "output"
  else if truthy (opt_prop (opt_index0 (prop data "choices")) "text")
    then prop (index0 (prop data "choices")) "text"
  else if truthy (opt_prop (opt_prop (opt_index0 (prop data "choices")) "message") "content")
    then prop (prop (index0 (prop data "choices")) "message") "content"
  else JSON_stringify data.

(** The fields that [extractAnswer] probes, in its order. *)
Definition probes (data : value Num) : list (value Num) :=
  [ prop data "result"; prop data "answer"; prop data "output";
    opt_prop (opt_index0 (prop data "choices")) "text";
    opt_prop (opt_prop (opt_index0 (prop data "choices")) "message") "content" ].

End Values.

(** ** Requests, responses and the environment *)

(** [req.file], as the upload middleware leaves it. *)
Record File := {
  file_path : string;
  file_originalname : string;
  file_filename : string;
  file_size : Z
}.

(** The fields of [req.body] and of [req.query] that the program reads;
    [None] is [undefined]. *)
Record Params := {
  field_q : option string;
  field_providers : option string
}.

Record Req := {
  req_body : option Params;
  req_query : option Params;
  req_file : option File
}.

(** [o && o.f] for an optional object [o] and a string field [f]: the field
    if it is there, and a falsy value otherwise, which is read as [""]. *)
Definition field (o : option Params) (f : Params -> option string) : string :=
  match o with
  | Some ps => default "" (f ps)
  | None => ""
  end.

(** [a || b] on strings. *)
Definition str_or (a b : string) : string := if nonempty a then a else b.

(** [(req.body && req.body.q) || (req.query && req.query.q) || ""] *)
Definition query_text (req : Req) : string :=
  str_or (str_or (field (req_body req) field_q) (field (req_query req) field_q)) "".

Inductive Method := GET | POST.

Inductive Part :=
  | StreamPart (path : string)     (* fs.createReadStream(path) *)
  | TextPart (text : string).

Inductive Body (Num : Type) :=
  | NoBody
  | FormBody (parts : list (string * Part))
  | JsonBody (v : value Num).

Arguments NoBody {Num}.
Arguments FormBody {Num} parts.
Arguments JsonBody {Num} v.

(** A call of [axios.get] or [axios.post]. *)
Record Request (Num : Type) := {
  method : Method;
  url : string;
  body : Body Num;
  headers : list (string * string);
  timeout : Z
}.

Arguments method {Num} r.
Arguments url {Num} r.
Arguments body {Num} r.
Arguments headers {Num} r.
Arguments timeout {Num} r.

(** An error, by its message. *)
Definition Error := string.

(** How an [axios] call ends: it resolves with [res.data], or it throws. *)
Inductive AxiosResult (Num : Type) :=
  | Resolved (data : value Num)
  | Rejected (err : Error).

Arguments Resolved {Num} data.
Arguments Rejected {Num} err.

(** What [callProvider] returns: [{ success: true, data }] or
    [{ success: false, error }]. *)
Inductive AttemptOutcome (Num : Type) :=
  | Success (data : value Num)
  | Failure (error : Error).

Arguments Success {Num} data.
Arguments Failure {Num} error.

(** What the handler answers: [res.status(s).send(b)] or
    [res.status(s).json(b)]; the status is 200 when the handler sets none. *)
Inductive Response (Num : Type) :=
  | Send (status : Z) (b : value Num)
  | Json (status : Z) (b : value Num).

Arguments Send {Num} status b.
Arguments Json {Num} status b.

Definition status {Num} (r : Response Num) : Z :=
  match r with Send s _ | Json s _ => s end.

(** The configuration read at start-up and the outside world: the network
    behind [axios], the clock and the timers.  Nothing is assumed of them. *)
Class Env (Num : Type) := {
  World : Type;
  axios : Request Num -> World -> AxiosResult Num * World;
  Date_now : World -> Z;
  setTimeout : Z -> World -> World;
  PROVIDERS : list string;
  TIMEOUT : Z;
  ATTEMPTS : Z;
  CACHE_TTL : Z;
  KEY_MAP : list (string * string)
}.

(** The effects of a run, in the order they happen.  [Called] marks an
    entry into [callProvider]. *)
Inductive Event (Num : Type) :=
  | Called (providerUrl : string)
  | Sent (r : Request Num) (res : AxiosResult Num)
  | Warned (attempt : Z) (providerUrl : string) (err : Error)
  | Slept (ms : Z).

Arguments Called {Num} providerUrl.
Arguments Sent {Num} r res.
Arguments Warned {Num} attempt providerUrl err.
Arguments Slept {Num} ms.

(** An entry of the cache: the value and the time [t] after which it is
    gone; [t = 0] never expires. *)
Record CacheEntry (Num : Type) := {
  entry_t : Z;
  entry_v : value Num
}.

Arguments entry_t {Num} c.
Arguments entry_v {Num} c.
Arguments Build_CacheEntry {Num} entry_t entry_v.

Section Gateway.
Context {Num : Type} {JN : JSNumber Num} {E : Env Num}.

Record State := {
  world : World;
  cache : gmap string (CacheEntry Num)
}.

(** A computation: from a state to a result, the state after it and the
    effects performed. *)
Definition M (A : Type) : Type := State -> A * State * list (Event Num).

Definition ret {A} (a : A) : M A := fun st => (a, st, []).

Definition bind {A B} (m : M A) (k : A -> M B) : M B :=
  fun st =>
    let '(a, st1, ev1) := m st in
    let '(b, st2, ev2) := k a st1 in
    (b, st2, ev1 ++ ev2).

Definition emit (e : Event Num) : M unit := fun st => (tt, st, [e]).

(** [await axios.get/post(...)] *)
Definition send (r : Request Num) : M (AxiosResult Num) :=
  fun st =>
    let '(res, w) := axios r (world st) in
    (res, {| world := w; cache := cache st |}, [Sent r res]).

(** [await new Promise(r => setTimeout(r, ms))] *)
Definition sleep (ms : Z) : M unit :=
  fun st => (tt, {| world := setTimeout ms (world st); cache := cache st |}, [Slept ms]).

End Gateway.

Arguments State Num {_}.
Arguments M Num {_} A.

Notation "'let*' x ':=' m 'in' k" := (bind m (fun x => k))
  (at level 10, x name, m at level 100, k at level 200, only parsing).
Notation "'run' m 'then' k" := (bind m (fun _ => k))
  (at level 10, m at level 100, k at level 200, only parsing).

Section Program.
Context {Num : Type} {JN : JSNumber Num} {E : Env Num}.

(** ** The response cache

    [new NodeCache({ stdTTL: CACHE_TTL })], with the behaviour of the
    node-cache package: [set] stamps the entry with the time after which it
    is gone, [CACHE_TTL] seconds from now, or with 0 (never) when
    [CACHE_TTL] is 0; [get] returns the value of an entry that is still
    there, and deletes an entry whose time has passed and returns
    [undefined]. *)

Definition expiry (now : Z) : Z :=
  if CACHE_TTL =? 0 then 0 else now + CACHE_TTL * 1000.

Definition expired (e : CacheEntry Num) (now : Z) : bool :=
  negb (entry_t e =? 0) && (entry_t e <? now).

Definition cache_get (key : string) : M Num (value Num) :=
  fun st =>
    match cache st !! key with
    | Some e =>
        if expired e (Date_now (world st))
        then (JUndefined, {| world := world st; cache := delete key (cache st) |}, [])
        else (entry_v e, st, [])
    | None => (JUndefined, st, [])
    end.

Definition cache_set (key : string) (v : value Num) : M Num unit :=
  fun st =>
    let e := {| entry_t := expiry (Date_now (world st)); entry_v := v |} in
    (tt, {| world := world st; cache := <[key := e]> (cache st) |}, []).

(** ** The credential resolver (proxy.js, [findKeyForProvider]) *)

(** [null] is [None]. *)
Definition findKeyForProvider (url : string) : option string :=
  snd <$> List.find (fun entry => startsWith url (fst entry)) KEY_MAP.

(** [if (key) headers["Authorization"] = `Bearer ${key}`] *)
Definition with_key (providerUrl : string) (hs : list (string * string))
  : list (string * string) :=
  match findKeyForProvider providerUrl with
  | Some key => if nonempty key then hs ++ [("Authorization", "Bearer " +:+ key)] else hs
  | None => hs
  end.

(** ** The request shapes (proxy.js, the body of the [try] in [callProvider]) *)

(** [form.getHeaders()]; the boundary parameter is left out. *)
Definition form_headers : list (string * string) :=
  [("content-type", "multipart/form-data")].

Definition multipart_request (providerUrl q : string) (f : File) : Request Num :=
  {| method := POST;
     url := split_head "?" providerUrl;
     body := FormBody (("image", StreamPart (file_path f))
                       :: (if nonempty q then [("q", TextPart q)] else []));
     headers := with_key providerUrl form_headers;
     timeout := TIMEOUT |}.

Definition urlToCall (providerUrl q : string) : string :=
  if endsWith providerUrl "=" then providerUrl +:+ encodeURIComponent q
  else if includes providerUrl "=q"
    then replace_q_value providerUrl ("q=" +:+ encodeURIComponent q)
  else providerUrl +:+ encodeURIComponent q.

(** The rule for the same address in the words of the specification: a
    parameter named [q] (the pattern [q=...]) has its value replaced;
    otherwise the encoded text is appended, to an identifier that ends with
    [=] or to any other. *)
Definition spec_urlToCall (providerUrl q : string) : string :=
  if includes providerUrl "q="
    then replace_q_value providerUrl ("q=" +:+ encodeURIComponent q)
  else if endsWith providerUrl "=" then providerUrl +:+ encodeURIComponent q
  else providerUrl +:+ encodeURIComponent q.

Definition get_request (providerUrl q : string) : Request Num :=
  {| method := GET;
     url := urlToCall providerUrl q;
     body := NoBody;
     headers := with_key providerUrl [];
     timeout := TIMEOUT |}.

Definition json_request (providerUrl q : string) : Request Num :=
  {| method := POST;
     url := providerUrl;
     body := JsonBody (JObject [("q", JString q)]);
     headers := with_key providerUrl [("Content-Type", "application/json")];
     timeout := TIMEOUT |}.

(** The second test of the [try] body. *)
Definition looks_like_query (providerUrl : string) : bool :=
  includes providerUrl "?" && includes providerUrl "=" &&
  negb (includes providerUrl "image=").

(** The first test of the [try] body: [file && providerUrl.includes("image=")]. *)
Definition wants_upload (providerUrl : string) (file : option File) : bool :=
  match file with
  | Some _ => includes providerUrl "image="
  | None => false
  end.

(** The request that one attempt sends. *)
Definition shapeRequest (providerUrl q : string) (file : option File) : Request Num :=
  match file with
  | Some f =>
      if includes providerUrl "image=" then multipart_request providerUrl q f
      else if looks_like_query providerUrl then get_request providerUrl q
      else json_request providerUrl q
  | None =>
      if looks_like_query providerUrl then get_request providerUrl q
      else json_request providerUrl q
  end.

(** ** The provider caller (proxy.js, [callProvider]) *)

(** The sleep after the failed attempt [attempt]: [200 * (attempt + 1)]. *)
Definition backoff (attempt : Z) : Z := 200 * (attempt + 1).

(** The loop [for (let attempt = 0; attempt < ATTEMPTS; attempt++)], from
    the iteration [attempt] on; [todo] is the number of iterations left,
    [ATTEMPTS - attempt], so that the test [attempt < ATTEMPTS] is
    [todo > 0]. *)
Fixpoint attempt_loop (todo : nat) (attempt : Z)
    (providerUrl q : string) (file : option File) : M Num (AttemptOutcome Num) :=
  match todo with
  | O => ret (Failure "Max attempts reached")
  | S todo' =>
      let* res := send (shapeRequest providerUrl q file) in
      match res with
      | Resolved data => ret (Success data)
      | Rejected err =>
          run emit (Warned (attempt + 1) providerUrl err) then
          if attempt =? ATTEMPTS - 1 then ret (Failure err)
          else
            run sleep (backoff attempt) then
            attempt_loop todo' (attempt + 1) providerUrl q file
      end
  end.

Definition callProvider (providerUrl : string) (originalReq : Req)
    (file : option File) : M Num (AttemptOutcome Num) :=
  let q := query_text originalReq in
  run emit (Called providerUrl) then
  attempt_loop (Z.to_nat ATTEMPTS) 0 providerUrl q file.

(** ** The chat endpoint (proxy.js, [router.post("/chat")]) *)

(** [s.split(",").map(p => p.trim()).filter(Boolean)] *)
Definition parse_providers (s : string) : list string :=
  List.filter nonempty (map trim (split "," s)).

(** [(req.body && req.body.providers) || (req.query && req.query.providers)],
    then the list it names, or [PROVIDERS]. *)
Definition effective_providers (req : Req) : list string :=
  let customProviders :=
    str_or (field (req_body req) field_providers)
           (field (req_query req) field_providers) in
  if nonempty customProviders then parse_providers customProviders else PROVIDERS.

Definition cacheKey (q : string) : string := "chat:" +:+ q.

(** The loop [for (const providerUrl of providers)] and the answer after it. *)
Fixpoint provider_loop (providers : list string) (req : Req) (key : string)
  : M Num (Response Num) :=
  match providers with
  | [] => ret (Send 502 (JString "All providers failed."))
  | providerUrl :: rest =>
      let* result := callProvider providerUrl req (req_file req) in
      match result with
      | Success data =>
          let answer := extractAnswer data in
          if negb (truthy answer) then provider_loop rest req key
          else
            run cache_set key answer then
            ret (Send 200 answer)
      | Failure _ => provider_loop rest req key
      end
  end.

Definition chat (req : Req) : M Num (Response Num) :=
  let q := query_text req in
  if negb (nonempty q) && negb (bool_decide (is_Some (req_file req)))
  then ret (Send 400 (JString "Missing q (query) or file."))
  else
    let key := cacheKey q in
    let* cached := cache_get key in
    if truthy cached then ret (Send 200 cached)
    else
      let providers := effective_providers req in
      if (length providers =? 0)%nat
      then ret (Send 500 (JString "No providers configured."))
      else provider_loop providers req key.

End Program.

(** ** The configuration read at start-up (proxy.js, [PROVIDERS], [KEY_MAP]) *)

(** [(process.env.PROVIDERS || "").split(",").map(p => p.trim()).filter(Boolean)];
    an unset variable is [None]. *)
Definition parse_PROVIDERS (env : option string) : list string :=
  parse_providers (str_or (default "" env) "").

(** One [pair] of the [forEach]: [const [prefix, key] = pair.split("|")],
    and the entry [prefix.trim()], [key.trim()] that is written when
    [prefix && key]; a [pair] without [|] has an [undefined] key. *)
Definition parse_pair (pair : string) : option (string * string) :=
  match split "|" pair with
  | prefix :: key :: _ =>
      if nonempty prefix && nonempty key then Some (trim prefix, trim key) else None
  | _ => None
  end.

(** The body of the [forEach]: the entry of the pair, if it gives one, is
    written with [KEY_MAP[prefix] = key]; for the prefix [__proto__] the
    assignment of a string changes nothing. *)
Definition write_pair (m : gmap string string) (pair : string) : gmap string string :=
  match parse_pair pair with
  | Some (prefix, key) =>
      if String.eqb prefix "__proto__" then m else <[prefix := key]> m
  | None => m
  end.

(** The object [KEY_MAP] after the parse, as a map from prefix to key: it
    stays empty when the variable is unset or empty, and the pairs are
    written in turn otherwise. *)
Definition parse_KEY_MAP (env : option string) : gmap string string :=
  if nonempty (default "" env)
  then foldl write_pair ∅ (split "," (default "" env))
  else ∅.

(** ** The first variant of the chat endpoint

    proxy.js holds the route twice.  The first [router.post("/chat")] calls
    the same [callProvider], answers in JSON, and caches the raw payload
    with the provider that gave it, without normalising it. *)

Module FirstVariant.
Section Program.
Context {Num : Type} {JN : JSNumber Num} {E : Env Num}.

Definition answer_of (providerUrl : string) (data : value Num) : value Num :=
  JObject [("provider", JString providerUrl); ("data", data)].

Fixpoint provider_loop (providers : list string) (req : Req) (key : string)
  : M Num (Response Num) :=
  match providers with
  | [] => ret (Json 502 (JObject [("error", JString "All providers failed.")]))
  | providerUrl :: rest =>
      let* result := callProvider providerUrl req (req_file req) in
      match result with
      | Success data =>
          run cache_set key (answer_of providerUrl data) then
          ret (Json 200 (answer_of providerUrl data))
      | Failure _ => provider_loop rest req key
      end
  end.

Definition from_cache (cached : value Num) : value Num :=
  JObject [("fromCache", JBool true);
           ("provider", prop cached "provider");
           ("data", prop cached "data")].

Definition chat (req : Req) : M Num (Response Num) :=
  let q := query_text req in
  if negb (nonempty q) && negb (bool_decide (is_Some (req_file req)))
  then ret (Json 400 (JObject [("error", JString "Missing q (query) or file.")]))
  else
    let key := cacheKey q in
    let* cached := cache_get key in
    if truthy cached then ret (Json 200 (from_cache cached))
    else
      let providers := effective_providers req in
      if (length providers =? 0)%nat
      then ret (Json 500 (JObject [("error", JString "No providers configured.")]))
      else provider_loop providers req key.

End Program.
End FirstVariant.

(** ** Observations on runs *)

Section Observations.
Context {Num : Type}.

Definition is_sent (e : Event Num) : bool :=
  match e with Sent _ _ => true | _ => false end.

(** The network calls of a run, in order. *)
Definition sent (evs : list (Event Num)) : list (Event Num) :=
  List.filter is_sent evs.

(** The providers that [callProvider] was invoked for, in order. *)
Fixpoint invoked (evs : list (Event Num)) : list string :=
  match evs with
  | [] => []
  | Called p :: rest => p :: invoked rest
  | _ :: rest => invoked rest
  end.

Definition rejected (res : AxiosResult Num) : bool :=
  match res with Rejected _ => true | Resolved _ => false end.

End Observations.

(** ** What is said of strings *)

(** A string made of pieces of [ws], one after the other. *)
Inductive made_of (ws : list string) : string -> Prop :=
  | made_of_nil : made_of ws ""
  | made_of_cons w s : In w ws -> made_of ws s -> made_of ws (w +:+ s).

(** White space only. *)
Definition spaces (s : string) : Prop := made_of whitespace s.

(** The string starts, or ends, with a white space character. *)
Definition leading_space (s : string) : bool := existsb (startsWith s) whitespace.
Definition trailing_space (s : string) : bool := existsb (endsWith s) whitespace.

(** The characters of a string. *)
Definition chars (s : string) : list ascii := String.list_ascii_of_string s.

(** ** What is said of runs *)

Section RunSpecs.
Context {Num : Type} {JN : JSNumber Num} {E : Env Num}.

(** The effects of the retry loop from the iteration [attempt] on, for the
    request [r] of the provider [p], and what the loop returns. *)
Inductive attempts_trace (p : string) (r : Request Num)
  : Z -> list (Event Num) -> AttemptOutcome Num -> Prop :=
  | trace_none attempt :
      ATTEMPTS <= attempt ->
      attempts_trace p r attempt [] (Failure "Max attempts reached")
  | trace_success attempt data :
      attempt < ATTEMPTS ->
      attempts_trace p r attempt [Sent r (Resolved data)] (Success data)
  | trace_last attempt err :
      attempt = ATTEMPTS - 1 ->
      attempts_trace p r attempt
        [Sent r (Rejected err); Warned (attempt + 1) p err] (Failure err)
  | trace_retry attempt err evs out :
      attempt < ATTEMPTS - 1 ->
      attempts_trace p r (attempt + 1) evs out ->
      attempts_trace p r attempt
        (Sent r (Rejected err) :: Warned (attempt + 1) p err
           :: Slept (backoff attempt) :: evs) out.

(** What the loop makes of the outcome of one provider: its normalised
    answer when the call succeeded and the answer is truthy. *)
Definition usable (out : AttemptOutcome Num) : option (value Num) :=
  match out with
  | Success data =>
      if truthy (extractAnswer data) then Some (extractAnswer data) else None
  | Failure _ => None
  end.

(** [failed_run req ps st st' evs]: from [st], the providers of [ps] are
    called one after the other, once each, and none gives a usable answer;
    [st'] is the state after the last of them and [evs] the effects. *)
Inductive failed_run (req : Req)
  : list string -> State Num -> State Num -> list (Event Num) -> Prop :=
  | failed_nil st : failed_run req [] st st []
  | failed_cons p ps st out st1 evs1 st2 evs2 :
      callProvider p req (req_file req) st = (out, st1, evs1) ->
      usable out = None ->
      failed_run req ps st1 st2 evs2 ->
      failed_run req (p :: ps) st st2 (evs1 ++ evs2).

(** The two ways the loop ends. *)
Definition answered_by (req : Req) (key : string) (ps : list string)
    (st : State Num) (resp : Response Num) (st' : State Num)
    (evs : list (Event Num)) : Prop :=
  exists ps1 p ps2 st1 evs1 data st2 evs2,
    ps = ps1 ++ p :: ps2 /\
    failed_run req ps1 st st1 evs1 /\
    callProvider p req (req_file req) st1 = (Success data, st2, evs2) /\
    truthy (extractAnswer data) = true /\
    resp = Send 200 (extractAnswer data) /\
    st' = (cache_set key (extractAnswer data) st2).1.2 /\
    evs = evs1 ++ evs2 /\
    invoked evs = ps1 ++ [p].

Definition exhausted (req : Req) (ps : list string)
    (st : State Num) (resp : Response Num) (st' : State Num)
    (evs : list (Event Num)) : Prop :=
  failed_run req ps st st' evs /\
  resp = Send 502 (JString "All providers failed.") /\
  invoked evs = ps.

(** Every network call is refused. *)
Definition always_rejects : Prop :=
  forall (r : Request Num) (w : World), rejected (axios r w).1 = true.

(** Whether the request passes the first test of the handler. *)
Definition has_input (req : Req) : Prop :=
  nonempty (query_text req) = true \/ is_Some (req_file req).

(** Every value in the cache is truthy. *)
Definition cache_ok (st : State Num) : Prop :=
  forall k e, cache st !! k = Some e -> truthy (entry_v e) = true.

End RunSpecs.

(** ** More observations on runs *)

Section MoreRunSpecs.
Context {Num : Type} {JN : JSNumber Num} {E : Env Num}.

(** The time slept in a run, in milliseconds. *)
Fixpoint slept (evs : list (Event Num)) : Z :=
  match evs with
  | [] => 0
  | Slept ms :: rest => ms + slept rest
  | _ :: rest => slept rest
  end.

Definition is_failure (out : AttemptOutcome Num) : bool :=
  match out with Failure _ => true | Success _ => false end.

(** [refused_run req ps st st' evs]: from [st], the providers of [ps] are
    called one after the other, once each, and every call is a failure. *)
Inductive refused_run (req : Req)
  : list string -> State Num -> State Num -> list (Event Num) -> Prop :=
  | refused_nil st : refused_run req [] st st []
  | refused_cons p ps st err st1 evs1 st2 evs2 :
      callProvider p req (req_file req) st = (Failure err, st1, evs1) ->
      refused_run req ps st1 st2 evs2 ->
      refused_run req (p :: ps) st st2 (evs1 ++ evs2).

(** The state with the entry of [key] taken out of the cache. *)
Definition forget (key : string) (st : State Num) : State Num :=
  {| world := world st; cache := delete key (cache st) |}.

End MoreRunSpecs.

(** ** A concrete environment

    Numbers are integers, printed in decimal.  The world is the number of
    network calls made so far and the time in milliseconds; a call takes
    5 ms and its result is given by [net] from the request and the number
    of calls before it; a sleep of [ms] takes [ms]. *)

Module Demo.

Lemma pretty_N_go_nonempty (x : N) (s : string) :
  nonempty s = true -> nonempty (pretty_N_go x s) = true.
Proof.
  revert s. induction (N.lt_wf_0 x) as [x _ IH]; intros s Hs.
  destruct (decide (x = 0)%N) as [->|Hx]; [done|].
  rewrite pretty_N_go_step by lia. apply IH; [apply N.div_lt; lia|done].
Qed.

Lemma pretty_Z_nonempty (z : Z) : nonempty (pretty z) = true.
Proof.
  assert (forall p : positive, nonempty (pretty p) = true) as Hpos.
  { intros p. unfold pretty, pretty_positive, pretty, pretty_N.
    case_decide; [done|]. rewrite pretty_N_go_step by lia.
    by apply pretty_N_go_nonempty. }
  destruct z as [|p|p]; [done|apply Hpos|].
  unfold pretty, pretty_Z. specialize (Hpos p).
  by destruct (pretty p).
Qed.

(** Integers as numbers: 0 is falsy, and the text is the decimal one (as
    JavaScript prints an integer below 10^21). *)
#[global] Instance Z_number : JSNumber Z := {|
  num_falsy := fun z => z =? 0;
  num_text := pretty;
  num_text_nonempty := pretty_Z_nonempty
|}.

Definition net_type : Type := Request Z -> nat -> AxiosResult Z.

Record Config := {
  cfg_providers : list string;
  cfg_attempts : Z;
  cfg_ttl : Z;
  cfg_keys : list (string * string)
}.

Definition step_world (net : net_type) (r : Request Z) (w : nat * Z)
  : AxiosResult Z * (nat * Z) :=
  (net r (fst w), (S (fst w), snd w + 5)).

Definition env (net : net_type) (cfg : Config) : Env Z := {|
  World := nat * Z;
  axios := step_world net;
  Date_now := snd;
  setTimeout := fun ms w => (fst w, snd w + ms);
  PROVIDERS := cfg_providers cfg;
  TIMEOUT := 7000;
  ATTEMPTS := cfg_attempts cfg;
  CACHE_TTL := cfg_ttl cfg;
  KEY_MAP := cfg_keys cfg
|}.

(** The state at time 1000, before any network call, with an empty cache. *)
Definition start (E : Env Z) (w : @World Z E) : @State Z E :=
  {| world := w; cache := ∅ |}.

(** Two providers, two attempts each, entries kept for 30 seconds. *)
Definition two_providers : Config :=
  {| cfg_providers := ["http://a/api"; "http://b/api"];
     cfg_attempts := 2;
     cfg_ttl := 30;
     cfg_keys := [("http://b", "s3cret")] |}.

(** No provider at all. *)
Definition no_provider : Config :=
  {| cfg_providers := []; cfg_attempts := 2; cfg_ttl := 30; cfg_keys := [] |}.

(** Every call is refused. *)
Definition offline : net_type := fun _ _ => Rejected "ECONNREFUSED".

(** A provider whose address starts with [http://b] answers [{answer: "ok"}];
    every other call is refused. *)
Definition only_b : net_type := fun r _ =>
  if startsWith (url r) "http://b"
  then Resolved (JObject [("answer", JString "ok")])
  else Rejected "ECONNREFUSED".

(** The first call is answered with the string [pong], every later one is
    refused. *)
Definition first_call_only : net_type := fun _ n =>
  match n with
  | O => Resolved (JString "pong")
  | S _ => Rejected "ECONNREFUSED"
  end.

Definition text_req (q : string) : Req :=
  {| req_body := Some {| field_q := Some q; field_providers := None |};
     req_query := None;
     req_file := None |}.

Definition photo : File :=
  {| file_path := "uploads/1-abc.png"; file_originalname := "cat.png";
     file_filename := "1-abc.png"; file_size := 1024 |}.

Definition upload_req (q : string) : Req :=
  {| req_body := Some {| field_q := Some q; field_providers := None |};
     req_query := None;
     req_file := Some photo |}.

Definition empty_req : Req :=
  {| req_body := Some {| field_q := None; field_providers := None |};
     req_query := Some {| field_q := None; field_providers := None |};
     req_file := None |}.

End Demo.

(** The environments and the state that the examples run in. *)

Section Scenarios.
Import Demo.

Definition E_offline : Env Z := env offline two_providers.
Definition E_only_b : Env Z := env only_b two_providers.
Definition E_once : Env Z := env first_call_only two_providers.
Definition E_none : Env Z := env offline no_provider.

(** A cache that holds an answer for the text [hi] until time 31000. *)
Definition warm : @State Z E_none :=
  @Build_State Z E_none (0%nat, 2000)
    {[ "chat:hi" := {| entry_t := 31000; entry_v := JString "cached" |} ]}.

(** The same entry, looked at after its time, with two providers that
    refuse every call. *)
Definition stale : @State Z E_offline :=
  @Build_State Z E_offline (0%nat, 40000)
    {[ "chat:hi" := {| entry_t := 31000; entry_v := JString "cached" |} ]}.

(** A request that names a provider list of commas and white space. *)
Definition blank_list_req : Req :=
  {| req_body := Some {| field_q := Some "hi"; field_providers := Some " , ," |};
     req_query := None;
     req_file := None |}.

End Scenarios.

(** * Properties *)

(** ** Examples on strings *)

Example trim_ex : trim "  http://a/?q= , " = "http://a/?q= ,". Proof. reflexivity. Qed.
Example enc_ex : encodeURIComponent "a b&c=d/é" = "a%20b%26c%3Dd%2F%C3%A9". Proof. reflexivity. Qed.
Example repl_ex : replace_q_value "http://x/?faq=1&q=old" "q=new" = "http://x/?faq=new&q=old". Proof. reflexivity. Qed.
Example split_ex : split "," "a,,b," = ["a"; ""; "b"; ""]. Proof. reflexivity. Qed.

(** ** The answer normaliser *)

Section NormaliserFacts.
Context {Num : Type} {JN : JSNumber Num}.

Lemma truthy_not_nullish (v : value Num) : truthy v = true -> nullish v = false.
Proof. by destruct v. Qed.

Lemma truthy_not_null (v : value Num) : truthy v = true -> v <> JNull.
Proof. by intros Hv ->. Qed.

(** Inside the tests of [extractAnswer] the optional chain and the plain
    accesses of the [return] read the same value. *)
Lemma chain_text (data : value Num) :
  truthy (opt_prop (opt_index0 (prop data "choices")) "text") = true ->
  prop (index0 (prop data "choices")) "text"
  = opt_prop (opt_index0 (prop data "choices")) "text".
Proof.
  unfold opt_prop, opt_index0.
  destruct (nullish (prop data "choices")); simpl; [done|].
  by destruct (nullish (index0 (prop data "choices"))).
Qed.

Lemma chain_content (data : value Num) :
  truthy (opt_prop (opt_prop (opt_index0 (prop data "choices")) "message") "content") = true ->
  prop (prop (index0 (prop data "choices")) "message") "content"
  = opt_prop (opt_prop (opt_index0 (prop data "choices")) "message") "content".
Proof.
  unfold opt_prop, opt_index0.
  destruct (nullish (prop data "choices")); simpl; [done|].
  destruct (nullish (index0 (prop data "choices"))); simpl; [done|].
  by destruct (nullish (prop (index0 (prop data "choices")) "message")).
Qed.

(** A truthy value has a JSON text, and the text is not empty. *)
Lemma serialize_truthy (data : value Num) :
  truthy data = true ->
  exists t, serialize data = Some t /\ nonempty t = true.
Proof.
  destruct data as [| |b|n|s|items|fields]; simpl; try done.
  - intros ->. by exists "true".
  - intros _. exists (num_text n). split; [done|apply num_text_nonempty].
  - intros _. by eexists.
  - intros _. by eexists.
  - intros _. by eexists.
Qed.

(** What [extractAnswer] returns for a truthy payload that is no string:
    the first truthy probe, and the JSON text of the payload when there is
    none. *)
Lemma extractAnswer_structure (data : value Num) :
  truthy data = true -> is_string data = false ->
  extractAnswer data
  = match List.find truthy (probes data) with
    | Some v => v
    | None => JSON_stringify data
    end.
Proof.
  intros Ht Hs. unfold extractAnswer. rewrite Ht, Hs. simpl.
  destruct (truthy (prop data "result")); [done|].
  destruct (truthy (prop data "answer")); [done|].
  destruct (truthy (prop data "output")); [done|].
  destruct (truthy (opt_prop (opt_index0 (prop data "choices")) "text")) eqn:E1.
  { by apply chain_text. }
  destruct (truthy (opt_prop (opt_prop (opt_index0 (prop data "choices")) "message") "content")) eqn:E2.
  { by apply chain_content. }
  done.
Qed.

Lemma extractAnswer_truthy (data : value Num) :
  truthy data = true -> truthy (extractAnswer data) = true.
Proof.
  intros Ht. destruct (is_string data) eqn:Hs.
  - unfold extractAnswer. by rewrite Ht, Hs.
  - rewrite extractAnswer_structure by done.
    destruct (List.find truthy (probes data)) as [v|] eqn:Hf.
    + by apply List.find_some in Hf as [_ ?].
    + unfold JSON_stringify.
      by destruct (serialize_truthy data Ht) as (t & -> & ?).
Qed.

Lemma extractAnswer_falsy (data : value Num) :
  truthy data = false -> extractAnswer data = JNull.
Proof. intros Ht. unfold extractAnswer. by rewrite Ht. Qed.

(** C5 (as amended): a payload that is a string other than the empty one is
    returned unchanged, and the empty string is answered with [null]. *)
Theorem extractAnswer_string (s : string) :
  extractAnswer (JString s : value Num) = if nonempty s then JString s else JNull.
Proof. by destruct s. Qed.

(** C6 (as amended): [extractAnswer] answers [null] exactly for the falsy
    payloads ([undefined], [null], [false], a falsy number, the empty
    string).  For every other payload the answer is truthy: the payload
    itself when it is a string, else the first truthy probed field, of
    whatever type it is, else the JSON text of the payload, which is a
    string that is not empty. *)
Theorem extractAnswer_absent_iff_falsy (data : value Num) :
  (extractAnswer data = JNull <-> truthy data = false) /\
  (truthy data = true ->
     truthy (extractAnswer data) = true /\
     (is_string data = true -> extractAnswer data = data) /\
     (is_string data = false -> forall v,
        List.find truthy (probes data) = Some v -> extractAnswer data = v) /\
     (is_string data = false -> List.find truthy (probes data) = None ->
        exists t, serialize data = Some t /\ nonempty t = true /\
                  extractAnswer data = JString t)).
Proof.
  split.
  - split; [|apply extractAnswer_falsy].
    intros Hn. destruct (truthy data) eqn:Ht; [|done].
    by apply extractAnswer_truthy, truthy_not_null in Ht.
  - intros Ht. split; [by apply extractAnswer_truthy|]. split; [|split].
    + intros Hs. unfold extractAnswer. by rewrite Ht, Hs.
    + intros Hs v Hv. by rewrite extractAnswer_structure, Hv.
    + intros Hs Hn. rewrite extractAnswer_structure, Hn by done.
      destruct (serialize_truthy data Ht) as (t & Hser & ?).
      exists t. unfold JSON_stringify. by rewrite Hser.
Qed.

End NormaliserFacts.

(** ** Strings *)

Section StringFacts.

#[local] Arguments String.append !_ _ / : simpl nomatch.

Lemma startsWith_app (p s : string) : startsWith (p +:+ s) p = true.
Proof.
  induction p as [|c p IH]; simpl; [by destruct s|].
  by rewrite Ascii.eqb_refl.
Qed.

Lemma occurrences_head (s p : string) :
  startsWith s p = true -> (1 <= occurrences s p)%nat.
Proof. intros Hs. destruct s; cbn [occurrences]; rewrite Hs; lia. Qed.

Lemma occurrences_middle (a e b : string) :
  (1 <= occurrences (a +:+ e +:+ b) e)%nat.
Proof.
  induction a as [|c a IH]; cbn [String.append].
  - apply occurrences_head, startsWith_app.
  - cbn [occurrences]. lia.
Qed.

Lemma app_empty_r (s : string) : s +:+ "" = s.
Proof. induction s; simpl; congruence. Qed.

Lemma app_assoc_str (a b c : string) : (a +:+ b) +:+ c = a +:+ b +:+ c.
Proof. induction a; simpl; congruence. Qed.

Lemma occurrences_suffix (a e : string) : (1 <= occurrences (a +:+ e) e)%nat.
Proof. rewrite <- (app_empty_r e) at 1. apply occurrences_middle. Qed.

(** [split("?")[0]] cuts the identifier at its first [?]. *)
Lemma split_head_spec (c : ascii) (s : string) :
  exists rest, s = split_head c s +:+ rest /\
    (rest = "" \/ exists rest', rest = String c rest') /\
    (forall d, In d (String.list_ascii_of_string (split_head c s)) -> d <> c).
Proof.
  induction s as [|d s (rest & Hs & Hrest & Hno)]; simpl.
  - exists "". split; [done|]. split; [by left|]. by intros ? [].
  - destruct (Ascii.eqb_spec d c) as [->|Hne].
    + exists (String c s). split; [done|]. split; [right; by eexists|].
      by intros ? [].
    + exists rest. split; [simpl; by f_equal|]. split; [done|].
      simpl. intros d' [<-|Hin]; [done|by apply Hno].
Qed.

Lemma skip_value_spec (s : string) :
  exists old, s = old +:+ skip_value s /\
    (forall d, In d (String.list_ascii_of_string old) -> d <> "&"%char) /\
    (skip_value s = "" \/ exists rest, skip_value s = String "&" rest).
Proof.
  induction s as [|d s (old & Hs & Hno & Hrest)]; simpl.
  - exists "". split; [done|]. split; [by intros ? []|by left].
  - destruct (Ascii.eqb_spec d "&") as [->|Hne].
    + exists "". split; [done|]. split; [by intros ? []|right; by eexists].
    + exists (String d old). split; [simpl; by f_equal|]. split; [|done].
      simpl. intros d' [<-|Hin]; [done|by apply Hno].
Qed.

(** The replacement of the [q] parameter: the identifier is cut at its
    leftmost [q=]; the value after it, up to the next [&], gives way to
    the new one, and what is before and after stays. *)
Lemma replace_q_value_spec (s r : string) :
  includes s "q=" = true ->
  exists pre old post,
    s = pre +:+ "q=" +:+ old +:+ post /\
    includes (pre +:+ "q") "q=" = false /\
    (forall d, In d (String.list_ascii_of_string old) -> d <> "&"%char) /\
    (post = "" \/ exists rest, post = String "&" rest) /\
    replace_q_value s r = pre +:+ r +:+ post.
Proof.
  induction s as [|c s IH]; [done|].
  intros Hinc. cbn [replace_q_value].
  destruct (startsWith (String c s) "q=") eqn:Hsw.
  - destruct s as [|c' s]; cbn [startsWith] in Hsw;
      [by rewrite andb_false_r in Hsw|].
    apply andb_prop in Hsw as [Hc Hc'].
    apply Ascii.eqb_eq in Hc as <-.
    rewrite andb_true_r in Hc'. apply Ascii.eqb_eq in Hc' as <-.
    destruct (skip_value_spec s) as (old & Hs & Hno & Hrest).
    exists "", old, (skip_value s). cbn [String.append drop].
    split; [by do 2 f_equal|]. by repeat split.
  - cbn [includes] in Hinc. rewrite Hsw in Hinc. cbn [orb] in Hinc.
    destruct (IH Hinc) as (pre & old & post & Hs & Hleft & Hno & Hpost & Hrep).
    exists (String c pre), old, post.
    split; [cbn [String.append]; by f_equal|].
    split; [|split; [done|split; [done|]]].
    + cbn [String.append includes]. rewrite Hleft, orb_false_r.
      rewrite Hs in Hsw. clear -Hsw.
      destruct pre as [|c' pre]; cbn [String.append startsWith] in *.
      * destruct (Ascii.eqb "q" c); [|done]. by rewrite andb_false_r.
      * destruct (Ascii.eqb "q" c); [|done]. cbn [andb] in *.
        by destruct (Ascii.eqb "=" c').
    + cbn [String.append]. by rewrite Hrep.
Qed.

(** The encoded text holds no [$], so that [replace] takes the replacement
    [q=] followed by it literally. *)
Lemma encodeURIComponent_no_dollar (s : string) :
  includes (encodeURIComponent s) "$" = false.
Proof.
  induction s as [|c s IH]; [done|].
  destruct c as [[] [] [] [] [] [] [] []]; exact IH.
Qed.

Lemma len_drop (k : nat) (s : string) : len (drop k s) = (len s - k)%nat.
Proof.
  unfold len. revert s.
  induction k as [|k IH]; intros [|c s]; cbn [drop String.length]; try lia.
  rewrite IH. lia.
Qed.

Lemma startsWith_len (s p : string) :
  startsWith s p = true -> (len p <= len s)%nat.
Proof.
  unfold len. revert s.
  induction p as [|c p IH]; intros [|d s]; cbn [startsWith String.length];
    try done; try lia.
  intros [_ Hs]%andb_prop. apply IH in Hs. lia.
Qed.

(** The bound that [trimStart] and [trimEnd] give to [strip] is enough:
    what [strip] returns starts with none of the characters to drop. *)
Lemma strip_done (ws : list string) (n : nat) (s : string) :
  Forall (fun w => nonempty w = true) ws ->
  (len s <= n)%nat ->
  List.find (startsWith (strip ws n s)) ws = None.
Proof.
  intros Hws. revert s. induction n as [|n IH]; intros s Hlen.
  - destruct s; [|cbn in Hlen; lia]. cbn [strip].
    induction Hws as [|w ws Hw _ IHws]; [done|].
    cbn [List.find]. by destruct w.
  - cbn [strip]. destruct (List.find (startsWith s) ws) as [w|] eqn:Hfind; [|done].
    apply IH. apply List.find_some in Hfind as [Hin Hsw].
    rewrite Forall_forall in Hws. apply list_elem_of_In, Hws in Hin.
    apply startsWith_len in Hsw. rewrite len_drop.
    destruct w; [done|]. cbn [len String.length] in *. lia.
Qed.

Lemma trimStart_done (s : string) :
  List.find (startsWith (trimStart s)) whitespace = None.
Proof.
  apply strip_done; [|done].
  unfold whitespace. by repeat constructor.
Qed.

End StringFacts.

(** ** Runs of the provider caller *)

Section CallerFacts.
Context {Num : Type} {JN : JSNumber Num} {E : Env Num}.

Lemma attempt_loop_trace (todo : nat) (attempt : Z) p q file
    (st st' : State Num) out evs :
  todo = Z.to_nat (ATTEMPTS - attempt) ->
  attempt_loop todo attempt p q file st = (out, st', evs) ->
  attempts_trace p (shapeRequest p q file) attempt evs out /\
  cache st' = cache st.
Proof.
  revert attempt st st' out evs.
  induction todo as [|todo IH]; intros attempt st st' out evs Hinv Hrun.
  - injection Hrun as <- <- <-. split; [|done]. apply trace_none. lia.
  - cbn [attempt_loop] in Hrun. unfold bind, send, emit, sleep, ret in Hrun.
    destruct (axios (shapeRequest p q file) (world st)) as [[data|err] w].
    + injection Hrun as <- <- <-. split; [|done]. apply trace_success. lia.
    + destruct (Z.eqb_spec attempt (ATTEMPTS - 1)) as [Heq|Hne].
      * injection Hrun as <- <- <-. split; [|done]. by apply trace_last.
      * destruct (attempt_loop todo (attempt + 1) p q file _)
          as [[out1 st1] evs1] eqn:Hrec.
        injection Hrun as <- <- <-.
        apply IH in Hrec as [Htr Hc]; [|lia].
        split; [|done]. apply trace_retry; [lia|done].
Qed.

Lemma callProvider_run p req file (st st' : State Num) out evs :
  callProvider p req file st = (out, st', evs) ->
  exists evs', evs = Called p :: evs' /\
    attempts_trace p (shapeRequest p (query_text req) file) 0 evs' out /\
    cache st' = cache st.
Proof.
  unfold callProvider, bind, emit. intros Hrun.
  destruct (attempt_loop _ _ _ _ _ _) as [[out1 st1] evs1] eqn:Hloop.
  injection Hrun as <- <- <-.
  apply attempt_loop_trace in Hloop as [Htr Hc]; [|f_equal; lia].
  by exists evs1.
Qed.

(** *** What a trace tells *)

Lemma trace_no_call p r attempt evs out :
  attempts_trace p r attempt evs out -> invoked evs = [].
Proof. induction 1; by cbn. Qed.

Lemma trace_requests p r attempt evs out :
  attempts_trace p r attempt evs out ->
  forall r' res, In (Sent r' res) evs -> r' = r.
Proof.
  induction 1 as [| | |attempt err evs out Hlt Htr IH]; intros r' res Hin;
    cbn [In] in Hin; intuition (try discriminate; try congruence; eauto).
Qed.

(** The number of network calls: none after the last allowed attempt. *)
Lemma trace_bound p r attempt evs out :
  attempts_trace p r attempt evs out ->
  (Z.of_nat (length (sent evs)) <= Z.max 0 (ATTEMPTS - attempt)).
Proof.
  induction 1 as [| | |attempt err evs out Hlt Htr IH];
    unfold sent in *; cbn [List.filter is_sent length] in *; lia.
Qed.

(** A failure comes after all the allowed attempts, each of them refused,
    and carries the error of the last one. *)
Lemma trace_failure p r attempt evs err :
  attempts_trace p r attempt evs (Failure err) ->
  attempt < ATTEMPTS ->
  Z.of_nat (length (sent evs)) = ATTEMPTS - attempt /\
  last (sent evs) = Some (Sent r (Rejected err)) /\
  (forall r' res, In (Sent r' res) evs -> rejected res = true).
Proof.
  remember (Failure err) as out eqn:Hout.
  induction 1 as [| | |attempt err' evs out Hlt Htr IH]; intros Hatt;
    unfold sent in *; cbn [List.filter is_sent length] in *.
  - lia.
  - done.
  - injection Hout as ->. split; [lia|]. split; [done|].
    intros r' res Hin. cbn [In] in Hin.
    destruct Hin as [[= _ <-]|[[=]|[]]]. done.
  - destruct (IH Hout) as (Hlen & Hlast & Hall); [lia|]. split; [lia|]. split.
    + destruct (List.filter is_sent evs) as [|e l] eqn:Hs; [cbn in Hlen; lia|].
      done.
    + intros r' res Hin. cbn [In] in Hin.
      destruct Hin as [[= _ <-]|[[=]|[[=]|Hin]]]; [done|by eapply Hall].
Qed.


(** If every call is refused, the trace is a failure (or no attempt at all). *)
Lemma trace_all_rejected p r attempt evs out :
  attempts_trace p r attempt evs out ->
  (forall r' res, In (Sent r' res) evs -> rejected res = true) ->
  exists err, out = Failure err.
Proof.
  induction 1 as [| | |attempt err' evs out Hlt Htr IH]; intros Hall.
  - by eexists.
  - by specialize (Hall r (Resolved data) (or_introl eq_refl)).
  - by eexists.
  - apply IH. intros r' res Hin. apply (Hall r' res). cbn. auto.
Qed.

(** The event after the failure of the attempt [attempt + k], when there
    is an attempt left: the sleep, and then the retry. *)
Lemma trace_backoff p r attempt evs out :
  attempts_trace p r attempt evs out ->
  forall (k : nat) err, sent evs !! k = Some (Sent r (Rejected err)) ->
  attempt + Z.of_nat k <> ATTEMPTS - 1 ->
  exists pre res post,
    evs = pre ++ [Sent r (Rejected err);
                  Warned (attempt + Z.of_nat k + 1) p err;
                  Slept (200 * (attempt + Z.of_nat k + 1));
                  Sent r res] ++ post /\
    length (sent pre) = k.
Proof.
  induction 1 as [| | |attempt err' evs out Hlt Htr IH]; intros k e Hk Hnl;
    unfold sent in *; cbn [List.filter is_sent] in *.
  - done.
  - by destruct k.
  - destruct k as [|k]; [|done]. lia.
  - destruct k as [|k].
    + cbn in Hk. injection Hk as ->. clear IH.
      assert (exists res post, evs = Sent r res :: post) as (res & post & ->).
      { inversion Htr; subst; try lia; by eexists _, _. }
      exists [], res, post. split; [|done].
      unfold backoff. cbn [app].
      by replace (attempt + Z.of_nat 0 + 1) with (attempt + 1) by lia.
    + cbn in Hk. destruct (IH k e Hk) as (pre & res & post & -> & Hlen); [lia|].
      exists (Sent r (Rejected err') :: Warned (attempt + 1) p err'
                :: Slept (backoff attempt) :: pre), res, post.
      split; [|cbn [List.filter is_sent length]; by rewrite Hlen].
      cbn [app].
      by replace (attempt + 1 + Z.of_nat k) with (attempt + Z.of_nat (S k)) by lia.
Qed.

End CallerFacts.

(** ** Runs of the fallback loop *)

Section DispatchFacts.
Context {Num : Type} {JN : JSNumber Num} {E : Env Num}.

Lemma invoked_app (a b : list (Event Num)) :
  invoked (a ++ b) = invoked a ++ invoked b.
Proof.
  induction a as [|[] a IH]; cbn [app invoked]; try done. by rewrite IH.
Qed.

Lemma sent_app (a b : list (Event Num)) : sent (a ++ b) = sent a ++ sent b.
Proof. apply List.filter_app. Qed.

Lemma callProvider_invoked p req file (st st' : State Num) out evs :
  callProvider p req file st = (out, st', evs) -> invoked evs = [p].
Proof.
  intros (evs' & -> & Htr & _)%callProvider_run.
  cbn [invoked]. by rewrite (trace_no_call _ _ _ _ _ Htr).
Qed.

Lemma failed_run_invoked req ps st st' evs :
  failed_run req ps st st' evs -> invoked evs = ps /\ cache st' = cache st.
Proof.
  induction 1 as [|p ps st out st1 evs1 st2 evs2 Hcall Hun Hrest [IHi IHc]].
  - done.
  - rewrite invoked_app, (callProvider_invoked _ _ _ _ _ _ _ Hcall), IHi.
    split; [done|]. rewrite IHc.
    by apply callProvider_run in Hcall as (? & _ & _ & ?).
Qed.

Lemma provider_loop_run ps req key (st st' : State Num) resp evs :
  provider_loop ps req key st = (resp, st', evs) ->
  answered_by req key ps st resp st' evs \/ exhausted req ps st resp st' evs.
Proof.
  revert st st' resp evs.
  induction ps as [|p ps IH]; intros st st' resp evs Hrun.
  - injection Hrun as <- <- <-. right. split; [constructor|done].
  - cbn [provider_loop] in Hrun. unfold bind at 1 in Hrun.
    destruct (callProvider p req (req_file req) st) as [[out st1] evs1] eqn:Hcall.
    assert (forall evs2, usable out = None ->
            provider_loop ps req key st1 = (resp, st', evs2) ->
            answered_by req key (p :: ps) st resp st' (evs1 ++ evs2) \/
            exhausted req (p :: ps) st resp st' (evs1 ++ evs2)) as Hnext.
    { intros evs2 Hun Hrest.
      destruct (IH _ _ _ _ Hrest) as [Hans|(Hfail & -> & Hinv)].
      - left. destruct Hans as
          (ps1 & p' & ps2 & st2 & evs3 & data & st3 & evs4 &
           -> & Hfail & Hcall' & Htruthy & -> & -> & -> & Hinv).
        exists (p :: ps1), p', ps2, st2, (evs1 ++ evs3), data, st3, evs4.
        repeat split; try done.
        + by eapply failed_cons.
        + by rewrite app_assoc.
        + rewrite invoked_app, Hinv.
          by rewrite (callProvider_invoked _ _ _ _ _ _ _ Hcall).
      - right. split; [|split; [done|]].
        + by eapply failed_cons.
        + rewrite invoked_app, Hinv.
          by rewrite (callProvider_invoked _ _ _ _ _ _ _ Hcall). }
    destruct out as [data|err].
    + destruct (truthy (extractAnswer data)) eqn:Htruthy; cbn [negb] in Hrun.
      * unfold bind, cache_set, ret in Hrun. injection Hrun as <- <- <-.
        left. exists [], p, ps, st, [], data, st1, evs1.
        rewrite app_nil_r.
        repeat split; try done; try constructor.
        by eapply callProvider_invoked.
      * destruct (provider_loop ps req key st1) as [[resp2 st2] evs2] eqn:Hrest.
        injection Hrun as <- <- <-.
        apply Hnext; [|done]. cbn. by rewrite Htruthy.
    + destruct (provider_loop ps req key st1) as [[resp2 st2] evs2] eqn:Hrest.
      injection Hrun as <- <- <-.
      by apply Hnext.
Qed.

(** C1: the provider loop tries the providers strictly in list order.  A
    run either ends at the first provider whose call succeeds with a truthy
    normalised answer, after each provider before it was called once and
    gave nothing usable, answers with that answer, and invokes no provider
    after it; or it calls every provider once, in order, none gives a
    usable answer, and the answer is the failure of all providers. *)
Theorem fallback_in_list_order (ps : list string) (req : Req) (key : string)
    (st : State Num) :
  match provider_loop ps req key st with
  | (resp, st', evs) =>
      answered_by req key ps st resp st' evs \/ exhausted req ps st resp st' evs
  end.
Proof.
  destruct (provider_loop ps req key st) as [[resp st'] evs] eqn:Hrun.
  by apply provider_loop_run.
Qed.

End DispatchFacts.

(** ** The request shapes *)

Section ShapeFacts.
Context {Num : Type} {JN : JSNumber Num} {E : Env Num}.

Lemma looks_like_query_no_upload providerUrl file :
  looks_like_query providerUrl = true -> wants_upload providerUrl file = false.
Proof.
  unfold looks_like_query, wants_upload. intros Hq.
  destruct file; [|done]. by destruct (includes providerUrl "image=");
    [rewrite andb_false_r in Hq|].
Qed.

Lemma shapeRequest_upload providerUrl q f :
  includes providerUrl "image=" = true ->
  shapeRequest providerUrl q (Some f) = multipart_request providerUrl q f.
Proof. unfold shapeRequest. by intros ->. Qed.

Lemma shapeRequest_query providerUrl q file :
  looks_like_query providerUrl = true ->
  shapeRequest providerUrl q file = get_request providerUrl q.
Proof.
  intros Hq. unfold shapeRequest. rewrite Hq.
  destruct file; [|done].
  pose proof (looks_like_query_no_upload providerUrl (Some f) Hq) as Hno.
  cbn in Hno. by rewrite Hno.
Qed.

(** An allowed attempt is made, and every network call of [callProvider]
    carries the request shaped for the provider. *)
Lemma callProvider_requests p req file (st : State Num) :
  (forall r res, In (Sent r res) (callProvider p req file st).2 ->
     r = shapeRequest p (query_text req) file) /\
  (1 <= ATTEMPTS ->
     exists res, In (Sent (shapeRequest p (query_text req) file) res)
                    (callProvider p req file st).2).
Proof.
  destruct (callProvider p req file st) as [[out st'] evs] eqn:Hrun.
  apply callProvider_run in Hrun as (evs' & -> & Htr & _). cbn [snd]. split.
  - intros r res [[=]|Hin]. by eapply trace_requests.
  - intros Hatt. inversion Htr; subst; try lia; eexists; cbn; eauto.
Qed.

(** C4: with a file attached, an identifier that contains [image=] gets
    the multipart shape whatever else it contains: a POST to the identifier
    cut at its first [?], with the field [image] bound to the stream of the
    file and a field [q] exactly when the query text is not empty; every
    network call of the provider caller for it is this request. *)
Theorem upload_selects_multipart (providerUrl q : string) (f : File) :
  includes providerUrl "image=" = true ->
  let r : Request Num := shapeRequest providerUrl q (Some f) in
  r = multipart_request providerUrl q f /\
  method r = POST /\
  (exists rest, providerUrl = url r +:+ rest /\
     (rest = "" \/ exists rest', rest = String "?" rest') /\
     (forall c, In c (String.list_ascii_of_string (url r)) -> c <> "?"%char)) /\
  (exists more, body r = FormBody (("image", StreamPart (file_path f)) :: more) /\
     ((exists v, In ("q", v) more) <-> q <> "") /\
     (forall k v, In (k, v) more -> k = "q" /\ v = TextPart q)) /\
  (forall req (st : State Num) r' res, query_text req = q ->
     In (Sent r' res) (callProvider providerUrl req (Some f) st).2 -> r' = r) /\
  (forall req (st : State Num), query_text req = q -> 1 <= ATTEMPTS ->
     exists res, In (Sent r res) (callProvider providerUrl req (Some f) st).2).
Proof.
  intros Himg r. subst r. rewrite (shapeRequest_upload _ _ _ Himg).
  split; [done|]. split; [done|]. split; [apply split_head_spec|]. split.
  - cbn [multipart_request body]. eexists. split; [done|]. destruct q; cbn; split.
    + split; [by intros [? []]|done].
    + by intros ? ? [].
    + split; [done|]. intros _. eexists. by left.
    + intros k v [[= <- <-]|[]]. done.
  - split.
    + intros req st r' res <- Hin.
      rewrite <- (shapeRequest_upload _ _ _ Himg).
      by eapply (callProvider_requests providerUrl req (Some f) st).
    + intros req st <- Hatt.
      rewrite <- (shapeRequest_upload _ _ _ Himg).
      by apply (callProvider_requests providerUrl req (Some f) st).
Qed.

(** C2 (as amended): an identifier with [?] and [=] and without [image=]
    is called with GET, with or without a file.  The address is the
    identifier followed by the encoded text when the identifier ends with
    [=]; otherwise, when it contains [=q] and [q=], the identifier with the
    value of its leftmost [q=], up to the next [&], replaced by the encoded
    text; otherwise, when it contains neither, the identifier followed by
    the encoded text.  In each of these cases the encoded text occurs in
    the address at least once. *)
Theorem query_shape_address (providerUrl q : string) (file : option File) :
  looks_like_query providerUrl = true ->
  let r : Request Num := shapeRequest providerUrl q file in
  let enc := encodeURIComponent q in
  r = get_request providerUrl q /\ method r = GET /\ body r = NoBody /\
  (endsWith providerUrl "=" = true ->
     url r = providerUrl +:+ enc /\ (1 <= occurrences (url r) enc)%nat) /\
  (endsWith providerUrl "=" = false ->
   includes providerUrl "=q" = true -> includes providerUrl "q=" = true ->
     (exists pre old post,
        providerUrl = pre +:+ "q=" +:+ old +:+ post /\
        includes (pre +:+ "q") "q=" = false /\
        (forall c, In c (String.list_ascii_of_string old) -> c <> "&"%char) /\
        (post = "" \/ exists rest, post = String "&" rest) /\
        url r = pre +:+ "q=" +:+ enc +:+ post) /\
     (1 <= occurrences (url r) enc)%nat) /\
  (endsWith providerUrl "=" = false ->
   includes providerUrl "=q" = false -> includes providerUrl "q=" = false ->
     url r = providerUrl +:+ enc /\ (1 <= occurrences (url r) enc)%nat).
Proof.
  intros Hq r enc. subst r. rewrite (shapeRequest_query _ _ _ Hq).
  split; [done|]. split; [done|]. split; [done|].
  cbn [get_request url]. unfold urlToCall. fold enc. split; [|split].
  - intros ->. split; [done|]. apply occurrences_suffix.
  - intros -> -> Hinc.
    destruct (replace_q_value_spec providerUrl ("q=" +:+ enc) Hinc)
      as (pre & old & post & Hu & Hleft & Hold & Hpost & Hrep).
    rewrite Hrep, app_assoc_str. split.
    + by exists pre, old, post.
    + rewrite <- (app_assoc_str pre "q=" (enc +:+ post)).
      apply occurrences_middle.
  - intros -> -> _. split; [done|]. apply occurrences_suffix.
Qed.

End ShapeFacts.

(** The address of the specification's rule is not the one the program
    calls: an identifier that has a [q] parameter and ends with [=] gets
    the text appended, and the parameter keeps its value. *)
Lemma query_shape_address_differs :
  let u := "http://x/?q=old&k=" in
  looks_like_query u = true /\
  urlToCall u "hi" = "http://x/?q=old&k=hi" /\
  spec_urlToCall u "hi" = "http://x/?q=hi&k=" /\
  urlToCall u "hi" <> spec_urlToCall u "hi" /\
  occurrences (urlToCall "http://a/?k=" "a") (encodeURIComponent "a") = 2%nat.
Proof. by vm_compute. Qed.

(** ** Retries, backoff and exhaustion *)

Section RetryFacts.
Context {Num : Type} {JN : JSNumber Num} {E : Env Num}.

(** The result that a [Sent] event records is the one [axios] gave. *)
Lemma attempt_loop_results (todo : nat) (attempt : Z) p q file
    (st st' : State Num) out evs :
  attempt_loop todo attempt p q file st = (out, st', evs) ->
  forall r res, In (Sent r res) evs -> exists w, res = (axios r w).1.
Proof.
  revert attempt st st' out evs.
  induction todo as [|todo IH]; intros attempt st st' out evs Hrun r res Hin.
  - injection Hrun as <- <- <-. by destruct Hin.
  - cbn [attempt_loop] in Hrun. unfold bind, send, emit, sleep, ret in Hrun.
    destruct (axios (shapeRequest p q file) (world st)) as [res0 w] eqn:Hax.
    assert (Sent r res = Sent (shapeRequest p q file) res0 ->
            exists w, res = (axios r w).1) as Hhere.
    { intros [= -> ->]. exists (world st). by rewrite Hax. }
    destruct res0 as [data|err].
    + injection Hrun as <- <- <-. destruct Hin as [Hin|[]]. by apply Hhere.
    + destruct (attempt =? ATTEMPTS - 1).
      * injection Hrun as <- <- <-.
        destruct Hin as [Hin|[[=]|[]]]. by apply Hhere.
      * destruct (attempt_loop todo (attempt + 1) p q file _)
          as [[out1 st1] evs1] eqn:Hrec.
        injection Hrun as <- <- <-.
        destruct Hin as [Hin|[[=]|[[=]|Hin]]]; [by apply Hhere|].
        by eapply IH.
Qed.

Lemma callProvider_results p req file (st st' : State Num) out evs :
  callProvider p req file st = (out, st', evs) ->
  forall r res, In (Sent r res) evs -> exists w, res = (axios r w).1.
Proof.
  unfold callProvider, bind, emit. intros Hrun.
  destruct (attempt_loop _ _ _ _ _ _) as [[out1 st1] evs1] eqn:Hloop.
  injection Hrun as <- <- <-. intros r res [[=]|Hin].
  by eapply attempt_loop_results.
Qed.

(** The failure of the last allowed attempt is the failure of the call. *)
Lemma trace_last_attempt p r attempt evs out :
  attempts_trace p r attempt evs out ->
  forall (k : nat) err, attempt + Z.of_nat k = ATTEMPTS - 1 ->
  sent evs !! k = Some (Sent r (Rejected err)) ->
  out = Failure err.
Proof.
  induction 1 as [| | |attempt err' evs out Hlt Htr IH]; intros k e Hk Hlast;
    unfold sent in *; cbn [List.filter is_sent] in *.
  - done.
  - by destruct k as [|[|k]].
  - destruct k as [|[|k]]; try done. by injection Hlast as ->.
  - destruct k as [|k]; [lia|]. apply (IH k); [lia|done].
Qed.

Lemma callProvider_fails p req file (st st' : State Num) out evs :
  always_rejects ->
  callProvider p req file st = (out, st', evs) ->
  (exists err, out = Failure err) /\
  Z.of_nat (length (sent evs)) = Z.max 0 ATTEMPTS.
Proof.
  intros Hrej Hrun.
  pose proof (callProvider_results _ _ _ _ _ _ _ Hrun) as Hres.
  apply callProvider_run in Hrun as (evs' & -> & Htr & _).
  assert (forall r res, In (Sent r res) evs' -> rejected res = true) as Hall.
  { intros r res Hin. destruct (Hres r res) as [w ->]; [by right|]. apply Hrej. }
  destruct (trace_all_rejected _ _ _ _ _ Htr Hall) as [err ->].
  split; [by eexists|]. change (sent (Called p :: evs')) with (sent evs').
  destruct (decide (0 < ATTEMPTS)) as [Hpos|Hneg].
  - destruct (trace_failure _ _ _ _ _ Htr Hpos) as (Hlen & _). lia.
  - pose proof (trace_bound _ _ _ _ _ Htr). lia.
Qed.

Lemma provider_loop_fails ps req key (st : State Num) :
  always_rejects ->
  match provider_loop ps req key st with
  | (resp, st', evs) =>
      resp = Send 502 (JString "All providers failed.") /\
      invoked evs = ps /\
      Z.of_nat (length (sent evs)) = Z.of_nat (length ps) * Z.max 0 ATTEMPTS /\
      cache st' = cache st
  end.
Proof.
  intros Hrej. revert st. induction ps as [|p ps IH]; intros st.
  - cbn. repeat split; lia.
  - cbn [provider_loop]. unfold bind at 1.
    destruct (callProvider p req (req_file req) st) as [[out st1] evs1] eqn:Hcall.
    destruct (callProvider_fails _ _ _ _ _ _ _ Hrej Hcall) as [[err ->] Hlen].
    specialize (IH st1).
    destruct (provider_loop ps req key st1) as [[resp st2] evs2].
    destruct IH as (-> & Hinv & Hlen2 & Hc).
    rewrite invoked_app, sent_app, length_app, Hinv.
    rewrite (callProvider_invoked _ _ _ _ _ _ _ Hcall).
    apply callProvider_run in Hcall as (? & _ & _ & Hc1).
    repeat split; [|congruence]. cbn [length]. lia.
Qed.

Lemma has_input_test req :
  has_input req ->
  negb (nonempty (query_text req)) && negb (bool_decide (is_Some (req_file req)))
  = false.
Proof.
  intros [->|Hf]; [done|]. rewrite (bool_decide_eq_true_2 _ Hf).
  apply andb_false_r.
Qed.

(** C3: a provider is attempted at most [ATTEMPTS] times; when its last
    allowed attempt fails, the call is a failure that carries the error of
    that attempt; and when every attempt on every provider fails, the loop
    over the providers, and with it a request that reaches the loop, ends
    with the failure of all providers, after [ATTEMPTS] attempts on each
    provider. *)
Theorem exhaustion :
  (forall p req file (st : State Num),
     Z.of_nat (length (sent (callProvider p req file st).2)) <= Z.max 0 ATTEMPTS) /\
  (forall p req file (st : State Num) (k : nat) err,
     Z.of_nat k = ATTEMPTS - 1 ->
     sent (callProvider p req file st).2 !! k
       = Some (Sent (shapeRequest p (query_text req) file) (Rejected err)) ->
     (callProvider p req file st).1.1 = Failure err) /\
  (always_rejects ->
     (forall ps req key (st : State Num),
        (provider_loop ps req key st).1.1 = Send 502 (JString "All providers failed.") /\
        invoked (provider_loop ps req key st).2 = ps /\
        Z.of_nat (length (sent (provider_loop ps req key st).2))
          = Z.of_nat (length ps) * Z.max 0 ATTEMPTS) /\
     (forall req (st : State Num),
        has_input req ->
        truthy (cache_get (cacheKey (query_text req)) st).1.1 = false ->
        effective_providers req <> [] ->
        (chat req st).1.1 = Send 502 (JString "All providers failed."))).
Proof.
  split; [|split].
  - intros p req file st.
    destruct (callProvider p req file st) as [[out st'] evs] eqn:Hrun.
    apply callProvider_run in Hrun as (evs' & -> & Htr & _).
    pose proof (trace_bound _ _ _ _ _ Htr) as Hb. cbn [snd].
    change (sent (Called p :: evs')) with (sent evs'). lia.
  - intros p req file st k err Hk Hlast.
    destruct (callProvider p req file st) as [[out st'] evs] eqn:Hrun.
    apply callProvider_run in Hrun as (evs' & -> & Htr & _). cbn [fst snd] in *.
    eapply trace_last_attempt; [done| |done]. lia.
  - intros Hrej. split.
    + intros ps req key st. pose proof (provider_loop_fails ps req key st Hrej) as Hl.
      destruct (provider_loop ps req key st) as [[resp st'] evs].
      cbn [fst snd]. by destruct Hl as (-> & Hinv & Hlen & _).
    + intros req st Hin Hmiss Hne. unfold chat.
      rewrite (has_input_test _ Hin). unfold bind at 1.
      destruct (cache_get (cacheKey (query_text req)) st) as [[cached st1] evs1].
      cbn [fst] in Hmiss. rewrite Hmiss.
      destruct (effective_providers req) as [|p ps] eqn:Hps; [done|].
      cbn [length Nat.eqb].
      pose proof (provider_loop_fails (p :: ps) req (cacheKey (query_text req)) st1 Hrej) as Hl.
      destruct (provider_loop (p :: ps) req _ st1) as [[resp st'] evs].
      by destruct Hl as (-> & _).
Qed.

(** C7 (as amended): in a call of the provider caller, after the failed
    attempt of index [i] (the network call number [i], counted from 0) that
    is not the last allowed one, the caller logs the failure, sleeps
    [200 * (i + 1)] milliseconds and then retries. *)
Theorem backoff_after_failure p req file (st : State Num) (i : nat) err :
  let r := shapeRequest p (query_text req) file in
  let evs := (callProvider p req file st).2 in
  sent evs !! i = Some (Sent r (Rejected err)) ->
  Z.of_nat i <> ATTEMPTS - 1 ->
  exists pre res post,
    evs = pre ++ [Sent r (Rejected err);
                  Warned (Z.of_nat i + 1) p err;
                  Slept (200 * (Z.of_nat i + 1));
                  Sent r res] ++ post /\
    length (sent pre) = i.
Proof.
  intros r evs. subst r evs.
  destruct (callProvider p req file st) as [[out st'] evs] eqn:Hrun.
  apply callProvider_run in Hrun as (evs' & -> & Htr & _). cbn [snd].
  change (sent (Called p :: evs')) with (sent evs'). intros Hi Hnl.
  destruct (trace_backoff _ _ _ _ _ Htr i err Hi) as (pre & res & post & -> & Hlen);
    [lia|].
  exists (Called p :: pre), res, post. split; [done|].
  by change (sent (Called p :: pre)) with (sent pre).
Qed.

End RetryFacts.

(** ** The handler and its cache *)

Section HandlerFacts.
Context {Num : Type} {JN : JSNumber Num} {E : Env Num}.

(** A lookup that finds an entry whose time has not passed returns its
    value and changes nothing. *)
Lemma cache_get_hit key (st : State Num) e :
  cache st !! key = Some e ->
  expired e (Date_now (world st)) = false ->
  cache_get key st = (entry_v e, st, []).
Proof. unfold cache_get. by intros -> ->. Qed.

(** With such a cache, a falsy result of a lookup is a miss. *)
Lemma cache_get_miss key (st : State Num) :
  cache_ok st ->
  truthy (cache_get key st).1.1 = false ->
  (cache_get key st).1.1 = JUndefined /\
  (cache st !! key = None \/
   exists e, cache st !! key = Some e /\ expired e (Date_now (world st)) = true).
Proof.
  intros Hok. unfold cache_get.
  destruct (cache st !! key) as [e|] eqn:He; [|by split; [|left]].
  destruct (expired e _) eqn:Hexp; cbn [fst].
  - intros _. split; [done|]. right. by exists e.
  - intros Hf. by rewrite (Hok _ _ He) in Hf.
Qed.

Lemma chat_hit req (st : State Num) e :
  has_input req ->
  cache st !! cacheKey (query_text req) = Some e ->
  expired e (Date_now (world st)) = false ->
  truthy (entry_v e) = true ->
  chat req st = (Send 200 (entry_v e), st, []).
Proof.
  intros Hin He Hexp Ht. unfold chat. rewrite (has_input_test _ Hin).
  unfold bind. rewrite (cache_get_hit _ _ _ He Hexp), Ht. done.
Qed.

Lemma first_chat_hit req (st : State Num) e :
  has_input req ->
  cache st !! cacheKey (query_text req) = Some e ->
  expired e (Date_now (world st)) = false ->
  truthy (entry_v e) = true ->
  FirstVariant.chat req st
  = (Json 200 (FirstVariant.from_cache (entry_v e)), st, []).
Proof.
  intros Hin He Hexp Ht. unfold FirstVariant.chat. rewrite (has_input_test _ Hin).
  unfold bind. rewrite (cache_get_hit _ _ _ He Hexp), Ht. done.
Qed.

(** The first variant of the loop answers 200 or 502. *)
Lemma first_provider_loop_status ps req key (st : State Num) :
  In (status (FirstVariant.provider_loop ps req key st).1.1) [200; 502].
Proof.
  revert st. induction ps as [|p ps IH]; intros st.
  - cbn. auto.
  - cbn [FirstVariant.provider_loop]. unfold bind at 1.
    destruct (callProvider p req (req_file req) st) as [[[data|err] st1] evs1].
    + unfold bind, cache_set, ret. cbn. auto.
    + specialize (IH st1).
      by destruct (FirstVariant.provider_loop ps req key st1) as [[resp st2] evs2].
Qed.

(** C9: a request that supplies neither a query text nor a file is answered
    with the missing-input error, and nothing else happens: no provider is
    invoked, no network call is made, the state is as before.  Both
    variants of the route behave so. *)
Theorem missing_input req (st : State Num) :
  field (req_body req) field_q = "" ->
  field (req_query req) field_q = "" ->
  req_file req = None ->
  chat req st = (Send 400 (JString "Missing q (query) or file."), st, []) /\
  FirstVariant.chat req st
  = (Json 400 (JObject [("error", JString "Missing q (query) or file.")]), st, []).
Proof.
  intros Hb Hq Hf. unfold chat, FirstVariant.chat, query_text.
  by rewrite Hb, Hq, Hf.
Qed.

(** C10: the cache is read before the provider list is looked at.  A
    request whose query text has a live entry in the cache is answered with
    the cached value, whatever the provider list is, the empty one
    included; and the answer that no provider is configured is given only
    after a miss on an empty provider list.  Both variants of the route
    behave so. *)
Theorem cache_read_before_provider_check :
  (forall req (st : State Num) e,
     has_input req ->
     cache st !! cacheKey (query_text req) = Some e ->
     expired e (Date_now (world st)) = false ->
     truthy (entry_v e) = true ->
     chat req st = (Send 200 (entry_v e), st, []) /\
     FirstVariant.chat req st
     = (Json 200 (FirstVariant.from_cache (entry_v e)), st, [])) /\
  (forall req (st : State Num),
     (chat req st).1.1 = Send 500 (JString "No providers configured.") \/
     (FirstVariant.chat req st).1.1
       = Json 500 (JObject [("error", JString "No providers configured.")]) ->
     effective_providers req = [] /\
     truthy (cache_get (cacheKey (query_text req)) st).1.1 = false /\
     (cache_ok st ->
        cache st !! cacheKey (query_text req) = None \/
        exists e, cache st !! cacheKey (query_text req) = Some e /\
                  expired e (Date_now (world st)) = true)).
Proof.
  split.
  - intros req st e Hin He Hexp Ht. split; [by apply chat_hit|by apply first_chat_hit].
  - intros req st Hresp.
    assert (effective_providers req = [] /\
            truthy (cache_get (cacheKey (query_text req)) st).1.1 = false)
      as [Hps Hmiss].
    { destruct Hresp as [Hresp|Hresp].
      - unfold chat in Hresp.
        destruct (negb _ && negb _); [done|]. unfold bind at 1 in Hresp.
        destruct (cache_get (cacheKey (query_text req)) st) as [[cached st1] evs1].
        cbn [fst]. destruct (truthy cached); [done|].
        destruct (effective_providers req) as [|p ps]; [done|].
        cbn [length Nat.eqb] in Hresp.
        destruct (provider_loop (p :: ps) req _ st1) as [[resp st2] evs2] eqn:Hrun.
        cbn [fst] in Hresp.
        apply provider_loop_run in Hrun as
          [(? & ? & ? & ? & ? & ? & ? & ? & _ & _ & _ & _ & -> & _)
          |(_ & -> & _)]; done.
      - unfold FirstVariant.chat in Hresp.
        destruct (negb _ && negb _); [done|]. unfold bind at 1 in Hresp.
        destruct (cache_get (cacheKey (query_text req)) st) as [[cached st1] evs1].
        cbn [fst]. destruct (truthy cached); [done|].
        destruct (effective_providers req) as [|p ps]; [done|].
        cbn [length Nat.eqb] in Hresp.
        pose proof (first_provider_loop_status (p :: ps) req
                      (cacheKey (query_text req)) st1) as Hst.
        destruct (FirstVariant.provider_loop (p :: ps) req _ st1) as [[resp st2] evs2].
        cbn [fst] in *. rewrite Hresp in Hst. cbn in Hst.
        by destruct Hst as [|[|[]]]. }
    split; [done|]. split; [done|].
    intros Hok. by apply cache_get_miss.
Qed.

(** C8: when a call of the handler answers 200 with [a], the cache holds
    [a] under the key ["chat:" + text], stamped at the end of the call when
    a provider gave the answer; and a next valid call with the same text,
    whatever its file, on that cache and before the entry is gone, answers
    200 with [a] again, from the cache: it invokes no provider, makes no
    network call and leaves the state as it is. *)
Theorem repeated_query_from_cache req1 (st st1 : State Num) a evs1 :
  chat req1 st = (Send 200 a, st1, evs1) ->
  exists e,
    cache st1 !! ("chat:" +:+ query_text req1) = Some e /\
    entry_v e = a /\
    truthy a = true /\
    (invoked evs1 <> [] -> entry_t e = expiry (Date_now (world st1))) /\
    forall req2 (st2 : State Num),
      has_input req2 ->
      query_text req2 = query_text req1 ->
      cache st2 = cache st1 ->
      expired e (Date_now (world st2)) = false ->
      chat req2 st2 = (Send 200 a, st2, []).
Proof.
  intros Hrun.
  assert (exists e, cache st1 !! cacheKey (query_text req1) = Some e /\
            entry_v e = a /\ truthy a = true /\
            (invoked evs1 <> [] -> entry_t e = expiry (Date_now (world st1))))
    as (e & He & Hv & Ht & Hstamp).
  { unfold chat in Hrun. destruct (negb _ && negb _); [done|].
    unfold bind at 1 in Hrun. unfold cache_get in Hrun.
    set (key := cacheKey (query_text req1)) in *.
    assert (forall (st0 : State Num) evs,
              (let '(b, st2, ev2) :=
                 (if (length (effective_providers req1) =? 0)%nat
                  then ret (Send 500 (JString "No providers configured."))
                  else provider_loop (effective_providers req1) req1 key) st0
               in (b, st2, [] ++ ev2)) = (Send 200 a, st1, evs) ->
              exists e, cache st1 !! key = Some e /\ entry_v e = a /\ truthy a = true /\
                (invoked evs <> [] -> entry_t e = expiry (Date_now (world st1)))) as Hmiss.
    { intros st0 evs Hl.
      destruct (length (effective_providers req1) =? 0)%nat; [done|].
      destruct (provider_loop _ _ _ st0) as [[resp st2] evs2] eqn:Hpl.
      injection Hl as -> -> <-.
      apply provider_loop_run in Hpl as
        [(ps1 & p & ps2 & st3 & evs3 & data & st4 & evs4 &
           _ & _ & _ & Htruthy & [= ->] & -> & _)|(_ & [=] & _)].
      eexists. unfold cache_set. cbn [fst snd cache world].
      rewrite lookup_insert_eq. by repeat split. }
    destruct (cache st !! key) as [e|] eqn:He.
    - destruct (expired e _) eqn:Hexp.
      + replace (truthy (@JUndefined Num)) with false in Hrun by done.
        by eapply Hmiss.
      + destruct (truthy (entry_v e)) eqn:Ht.
        * injection Hrun as <- <- <-. exists e. by repeat split.
        * by eapply Hmiss.
    - replace (truthy (@JUndefined Num)) with false in Hrun by done.
      by eapply Hmiss. }
  exists e. repeat split; try done.
  intros req2 st2 Hin Hq Hc Hexp. rewrite <- Hv.
  apply chat_hit; try done. by rewrite Hq, Hc.
  by rewrite Hv.
Qed.

End HandlerFacts.

(** ** The handler keeps the cache truthy *)

Section CacheInvariant.
Context {Num : Type} {JN : JSNumber Num} {E : Env Num}.

Lemma cache_get_ok key (st : State Num) :
  cache_ok st -> cache_ok (cache_get key st).1.2.
Proof.
  intros Hok. unfold cache_get.
  destruct (cache st !! key) as [e|]; [|done].
  destruct (expired e _); [|done].
  cbn [fst snd]. intros k e' He'. cbn [cache] in He'.
  apply lookup_delete_Some in He' as [_ He']. by eapply Hok.
Qed.

(** X16: the handler keeps the cache truthy: if every value in the cache is
    truthy before a request, so is every value after it; the test
    [if (cached)] then takes no entry for a miss. *)
Lemma chat_cache_ok req (st : State Num) :
  cache_ok st -> cache_ok (chat req st).1.2.
Proof.
  intros Hok. unfold chat. destruct (negb _ && negb _); [done|].
  unfold bind at 1.
  pose proof (cache_get_ok (cacheKey (query_text req)) st Hok) as Hok1.
  destruct (cache_get (cacheKey (query_text req)) st) as [[cached st1] evs1].
  cbn [fst snd] in Hok1. destruct (truthy cached); [done|].
  destruct (length (effective_providers req) =? 0)%nat; [done|].
  destruct (provider_loop _ _ _ st1) as [[resp st2] evs2] eqn:Hrun. cbn [fst snd].
  apply provider_loop_run in Hrun as
    [(ps1 & p & ps2 & st3 & evs3 & data & st4 & evs4 &
       _ & Hfail & Hcall & Htruthy & _ & -> & _)|(Hfail & _)].
  - apply failed_run_invoked in Hfail as [_ Hc3].
    apply callProvider_run in Hcall as (_ & _ & _ & Hc4).
    unfold cache_set. cbn [fst snd]. intros k e. cbn [cache].
    destruct (decide (cacheKey (query_text req) = k)) as [->|Hne].
    + rewrite lookup_insert_eq. by intros [= <-].
    + rewrite lookup_insert_ne by done. rewrite Hc4, Hc3. apply Hok1.
  - apply failed_run_invoked in Hfail as [_ Hc]. intros k e. rewrite Hc. apply Hok1.
Qed.

End CacheInvariant.

(** * The properties on the concrete environment *)

(** Provider [a] always fails and provider [b] answers [ok]: the answer is
    [ok], [a] is tried before [b], and [b] is invoked once. *)
Example fallback_a_then_b :
  let res := chat (E := E_only_b) (Demo.text_req "hi") (Demo.start E_only_b (0%nat, 1000)) in
  res.1.1 = Send 200 (JString "ok") /\
  invoked res.2 = ["http://a/api"; "http://b/api"] /\
  length (sent res.2) = 3%nat.
Proof. by vm_compute. Qed.

(** The empty string is answered with [null]. *)
Lemma extractAnswer_empty_string :
  extractAnswer (JString "" : value Z) = JNull /\
  extractAnswer (JString "" : value Z) <> JString "".
Proof. by vm_compute. Qed.

(** Payloads that are neither [null] nor [undefined] and are answered with
    [null], and a payload whose answer is not a string. *)
Lemma extractAnswer_falsy_payloads :
  extractAnswer (JNumber 0 : value Z) = JNull /\
  extractAnswer (JBool false : value Z) = JNull /\
  nullish (JNumber 0 : value Z) = false /\
  nullish (JBool false : value Z) = false /\
  extractAnswer (JObject [("result", JNumber 5)] : value Z) = JNumber 5.
Proof. by vm_compute. Qed.

Lemma extractAnswer_absent_iff_falsy_witness :
  truthy (JArray [JNumber 7; JNull] : value Z) = true /\
  extractAnswer (JArray [JNumber 7; JNull] : value Z) = JString "[7,null]".
Proof.
  split; [reflexivity|].
  destruct (extractAnswer_absent_iff_falsy (JArray [JNumber 7; JNull] : value Z))
    as [_ Htruthy].
  destruct (Htruthy eq_refl) as (_ & _ & _ & Hfallback).
  destruct (Hfallback eq_refl eq_refl) as (t & Hser & _ & ->).
  vm_compute in Hser. by injection Hser as <-.
Defined.

Lemma query_shape_address_witness :
  looks_like_query "http://x/api?text=" = true /\
  url (shapeRequest (E := E_offline) "http://x/api?text=" "hi there" None)
  = "http://x/api?text=hi%20there".
Proof.
  split; [reflexivity|].
  destruct (query_shape_address (E := E_offline) "http://x/api?text=" "hi there"
              None eq_refl) as (_ & _ & _ & Hends & _).
  destruct (Hends eq_refl) as [-> _]. reflexivity.
Defined.

Lemma upload_selects_multipart_witness :
  includes "http://img/api?image=&lang=en" "image=" = true /\
  let r := shapeRequest (E := E_offline) "http://img/api?image=&lang=en" "what"
             (Some Demo.photo) in
  method r = POST /\ url r = "http://img/api" /\
  body r = FormBody [("image", StreamPart "uploads/1-abc.png"); ("q", TextPart "what")].
Proof.
  split; [reflexivity|].
  destruct (upload_selects_multipart (E := E_offline)
              "http://img/api?image=&lang=en" "what" Demo.photo eq_refl)
    as (-> & _).
  by vm_compute.
Defined.

Lemma E_offline_rejects : always_rejects (E := E_offline).
Proof. intros r w. reflexivity. Defined.

Lemma exhaustion_witness :
  always_rejects (E := E_offline) /\
  (chat (E := E_offline) (Demo.text_req "hi") (Demo.start E_offline (0%nat, 1000))).1.1
  = Send 502 (JString "All providers failed.").
Proof.
  split; [exact E_offline_rejects|].
  destruct (exhaustion (E := E_offline)) as (_ & _ & Hall).
  destruct (Hall E_offline_rejects) as [_ Hchat].
  apply Hchat; [by left|reflexivity|discriminate].
Defined.

(** The sleep after the failed attempt of index 0 is 200 ms, which is not
    0 times a base delay. *)
Lemma backoff_not_index_times_base :
  let r := shapeRequest (E := E_offline) "http://a/api" "hi" None in
  (callProvider (E := E_offline) "http://a/api" (Demo.text_req "hi") None
     (Demo.start E_offline (0%nat, 1000))).2
  = [Called "http://a/api";
     Sent r (Rejected "ECONNREFUSED"); Warned 1 "http://a/api" "ECONNREFUSED";
     Slept 200;
     Sent r (Rejected "ECONNREFUSED"); Warned 2 "http://a/api" "ECONNREFUSED"] /\
  forall baseDelay : Z, 0 * baseDelay <> 200.
Proof. split; [by vm_compute|lia]. Qed.

Lemma backoff_after_failure_witness :
  let r := shapeRequest (E := E_offline) "http://a/api" "hi" None in
  let evs := (callProvider (E := E_offline) "http://a/api" (Demo.text_req "hi") None
                (Demo.start E_offline (0%nat, 1000))).2 in
  exists pre res post,
    evs = pre ++ [Sent r (Rejected "ECONNREFUSED");
                  Warned (Z.of_nat 0 + 1) "http://a/api" "ECONNREFUSED";
                  Slept (200 * (Z.of_nat 0 + 1));
                  Sent r res] ++ post /\
    length (sent pre) = 0%nat.
Proof.
  apply (backoff_after_failure (E := E_offline) "http://a/api" (Demo.text_req "hi")
           None (Demo.start E_offline (0%nat, 1000)) 0 "ECONNREFUSED").
  - reflexivity.
  - vm_compute. discriminate.
Defined.

Lemma missing_input_witness :
  (chat (E := E_offline) Demo.empty_req (Demo.start E_offline (0%nat, 1000))
   = (Send 400 (JString "Missing q (query) or file."),
      Demo.start E_offline (0%nat, 1000), [])).
Proof.
  apply (missing_input (E := E_offline) Demo.empty_req
           (Demo.start E_offline (0%nat, 1000))); reflexivity.
Defined.

Lemma cache_read_before_provider_check_witness :
  effective_providers (E := E_none) (Demo.text_req "hi") = [] /\
  chat (E := E_none) (Demo.text_req "hi") warm = (Send 200 (JString "cached"), warm, []).
Proof.
  split; [reflexivity|].
  destruct (cache_read_before_provider_check (E := E_none)) as [Hhit _].
  apply (Hhit (Demo.text_req "hi") warm
           {| entry_t := 31000; entry_v := JString "cached" |});
    [by left|by vm_compute|reflexivity|reflexivity].
Defined.

Lemma repeated_query_from_cache_witness :
  let first := chat (E := E_once) (Demo.text_req "foo") (Demo.start E_once (0%nat, 1000)) in
  first.1.1 = Send 200 (JString "pong") /\
  invoked first.2 = ["http://a/api"] /\
  chat (E := E_once) (Demo.upload_req "foo") first.1.2
  = (Send 200 (JString "pong"), first.1.2, []).
Proof.
  intros first. split; [by vm_compute|]. split; [by vm_compute|].
  destruct (repeated_query_from_cache (E := E_once) (Demo.text_req "foo")
              (Demo.start E_once (0%nat, 1000)) first.1.2 (JString "pong") first.2)
    as (e & He & _ & _ & _ & Hnext).
  { by vm_compute. }
  apply Hnext; [by right; eexists|reflexivity|reflexivity|].
  vm_compute in He. injection He as <-. by vm_compute.
Defined.

(** * Further properties *)

(** ** More on strings *)

Section MoreStringFacts.

#[local] Arguments String.append !_ _ / : simpl nomatch.

Lemma startsWith_iff (s p : string) :
  startsWith s p = true <-> exists r, s = p +:+ r.
Proof.
  split.
  - revert s. induction p as [|c p IH]; intros s Hs; [by exists s|].
    destruct s as [|d s]; [done|]. cbn [startsWith] in Hs.
    apply andb_prop in Hs as [->%Ascii.eqb_eq Hs].
    destruct (IH _ Hs) as [r ->]. by exists r.
  - intros [r ->]. apply startsWith_app.
Qed.

Lemma startsWith_app_l (t r w : string) :
  startsWith t w = true -> startsWith (t +:+ r) w = true.
Proof.
  intros [r' ->]%startsWith_iff. rewrite app_assoc_str. apply startsWith_app.
Qed.

Lemma startsWith_empty (w : string) :
  nonempty w = true -> startsWith "" w = false.
Proof. by destruct w. Qed.

Lemma rev_app_spec (s a : string) : String.rev_app s a = String.rev s +:+ a.
Proof.
  unfold String.rev. revert a. induction s as [|c s IH]; intros a; [done|].
  cbn [String.rev_app]. rewrite (IH (String c a)), (IH (String c "")).
  by rewrite app_assoc_str.
Qed.

Lemma rev_cons (c : ascii) (s : string) :
  String.rev (String c s) = String.rev s +:+ String c "".
Proof. unfold String.rev at 1. cbn [String.rev_app]. apply rev_app_spec. Qed.

Lemma rev_app_distr (a b : string) :
  String.rev (a +:+ b) = String.rev b +:+ String.rev a.
Proof.
  induction a as [|c a IH]; cbn [String.append].
  - by rewrite app_empty_r.
  - by rewrite !rev_cons, IH, app_assoc_str.
Qed.

Lemma rev_involutive (s : string) : String.rev (String.rev s) = s.
Proof.
  induction s as [|c s IH]; [done|].
  by rewrite rev_cons, rev_app_distr, IH.
Qed.

Lemma len_rev (s : string) : len (String.rev s) = len s.
Proof.
  assert (forall a b, len (a +:+ b) = (len a + len b)%nat) as Happ.
  { unfold len. induction a as [|c a IH]; intros b; cbn; [done|]. by rewrite IH. }
  induction s as [|c s IH]; [done|].
  rewrite rev_cons, Happ, IH. unfold len. cbn. lia.
Qed.

Lemma endsWith_iff (s p : string) :
  endsWith s p = true <-> exists a, s = a +:+ p.
Proof.
  split.
  - induction s as [|c s IH]; cbn [endsWith]; intros Hs.
    + rewrite orb_false_r in Hs. apply String.eqb_eq in Hs as <-. by exists "".
    + apply orb_prop in Hs as [Hs|Hs].
      * apply String.eqb_eq in Hs as <-. by exists "".
      * destruct (IH Hs) as [a ->]. by exists (String c a).
  - intros [a ->]. induction a as [|c a IH]; cbn [String.append].
    + destruct p; cbn [endsWith]; by rewrite String.eqb_refl.
    + cbn [endsWith]. by rewrite IH, orb_true_r.
Qed.

Lemma endsWith_rev (s p : string) :
  endsWith s p = startsWith (String.rev s) (String.rev p).
Proof.
  apply eq_true_iff_eq. rewrite endsWith_iff, startsWith_iff. split.
  - intros [a ->]. exists (String.rev a). apply rev_app_distr.
  - intros [r Hr]. exists (String.rev r).
    by rewrite <- (rev_involutive s), Hr, rev_app_distr, rev_involutive.
Qed.

(** [drop] cuts a prefix off. *)
Lemma drop_spec (k : nat) (s : string) :
  exists pre, s = pre +:+ drop k s /\ len pre = Nat.min k (len s).
Proof.
  revert s. induction k as [|k IH]; intros s; [by exists ""|].
  destruct s as [|c s]; [by exists ""|].
  destruct (IH s) as (pre & Hs & Hlen). exists (String c pre).
  cbn [drop String.append]. split; [by f_equal|].
  unfold len in *. cbn [String.length]. lia.
Qed.

Lemma drop_prefix (w r : string) : drop (len w) (w +:+ r) = r.
Proof. induction w as [|c w IH]; [done|]. apply IH. Qed.

End MoreStringFacts.

(** ** Trimming *)

Section TrimFacts.

#[local] Arguments String.append !_ _ / : simpl nomatch.

Lemma find_existsb {A} (f : A -> bool) (l : list A) :
  List.find f l = None <-> existsb f l = false.
Proof.
  induction l as [|x l IH]; [done|]. cbn. destruct (f x); [done|]. apply IH.
Qed.

Lemma made_of_app ws (a b : string) :
  made_of ws a -> made_of ws b -> made_of ws (a +:+ b).
Proof.
  induction 1 as [|w s Hw Hs IH]; intros Hb; [done|].
  rewrite app_assoc_str. constructor; auto.
Qed.

Lemma made_of_rev ws (s : string) :
  made_of (map String.rev ws) s -> made_of ws (String.rev s).
Proof.
  induction 1 as [|w s Hw Hs IH]; [constructor|].
  rewrite rev_app_distr. apply made_of_app; [done|].
  apply in_map_iff in Hw as (w' & <- & Hw'). rewrite rev_involutive.
  rewrite <- (app_empty_r w'). by repeat constructor.
Qed.

(** What [strip] drops is made of pieces of [ws]. *)
Lemma strip_spec (ws : list string) (n : nat) (s : string) :
  exists pre, s = pre +:+ strip ws n s /\ made_of ws pre.
Proof.
  revert s. induction n as [|n IH]; intros s; [exists ""; by split; [|constructor]|].
  cbn [strip]. destruct (List.find (startsWith s) ws) as [w|] eqn:Hfind;
    [|exists ""; by split; [|constructor]].
  apply List.find_some in Hfind as [Hin [r ->]%startsWith_iff].
  rewrite drop_prefix. destruct (IH r) as (pre & Hr & Hpre).
  exists (w +:+ pre). split; [|by constructor].
  rewrite app_assoc_str. by f_equal.
Qed.

Lemma strip_id (ws : list string) (n : nat) (s : string) :
  List.find (startsWith s) ws = None -> strip ws n s = s.
Proof. intros Hs. destruct n; [done|]. cbn [strip]. by rewrite Hs. Qed.

Lemma whitespace_nonempty : Forall (fun w => nonempty w = true) whitespace.
Proof. unfold whitespace. by repeat constructor. Qed.

Lemma whitespace_rev_nonempty :
  Forall (fun w => nonempty w = true) (map String.rev whitespace).
Proof. unfold whitespace. by repeat constructor. Qed.

Lemma trailing_space_rev (s : string) :
  trailing_space s = false <->
  List.find (startsWith (String.rev s)) (map String.rev whitespace) = None.
Proof.
  rewrite find_existsb. unfold trailing_space.
  induction whitespace as [|w ws IH]; [done|].
  cbn [existsb map]. rewrite endsWith_rev.
  destruct (startsWith (String.rev s) (String.rev w)); [done|]. apply IH.
Qed.

Lemma trimStart_spec (s : string) :
  exists a, s = a +:+ trimStart s /\ spaces a /\ leading_space (trimStart s) = false.
Proof.
  destruct (strip_spec whitespace (len s) s) as (a & Hs & Ha).
  exists a. split; [done|]. split; [done|].
  apply find_existsb, trimStart_done.
Qed.

Lemma trimEnd_spec (s : string) :
  exists b, s = trimEnd s +:+ b /\ spaces b /\ trailing_space (trimEnd s) = false.
Proof.
  unfold trimEnd.
  destruct (strip_spec (map String.rev whitespace) (len s) (String.rev s))
    as (pre & Hs & Hpre).
  exists (String.rev pre). split; [|split].
  - by rewrite <- rev_app_distr, <- Hs, rev_involutive.
  - by apply made_of_rev.
  - apply trailing_space_rev. rewrite rev_involutive.
    apply strip_done; [apply whitespace_rev_nonempty|]. by rewrite len_rev.
Qed.

Lemma leading_space_prefix (t b : string) :
  leading_space (t +:+ b) = false -> leading_space t = false.
Proof.
  unfold leading_space. induction whitespace as [|w ws IH]; [done|].
  cbn [existsb]. intros [Hw Hws]%orb_false_elim. rewrite (IH Hws), orb_false_r.
  destruct (startsWith t w) eqn:Ht; [|done].
  by rewrite (startsWith_app_l _ b _ Ht) in Hw.
Qed.

(** [trim] cuts white space, and nothing else, off both ends, and leaves
    none at either end. *)
Lemma trim_spec (s : string) :
  exists a b, s = a +:+ trim s +:+ b /\ spaces a /\ spaces b /\
    leading_space (trim s) = false /\ trailing_space (trim s) = false.
Proof.
  destruct (trimStart_spec s) as (a & Hs & Ha & Hlead).
  destruct (trimEnd_spec (trimStart s)) as (b & Ht & Hb & Htrail).
  exists a, b. unfold trim. split; [by rewrite <- Ht|]. split; [done|].
  split; [done|]. split; [|done].
  rewrite Ht in Hlead. by apply leading_space_prefix in Hlead.
Qed.

Lemma trim_fixed (s : string) :
  leading_space s = false -> trailing_space s = false -> trim s = s.
Proof.
  intros Hl Ht. unfold trim, trimStart.
  rewrite (strip_id _ _ _ (proj2 (find_existsb _ _) Hl)).
  unfold trimEnd. rewrite strip_id by by apply trailing_space_rev.
  apply rev_involutive.
Qed.

Lemma trim_idempotent (s : string) : trim (trim s) = trim s.
Proof.
  destruct (trim_spec s) as (a & b & _ & _ & _ & Hl & Ht). by apply trim_fixed.
Qed.

Lemma chars_app (a b : string) : chars (a +:+ b) = chars a ++ chars b.
Proof. unfold chars. induction a as [|c a IH]; cbn; [done|]. by rewrite IH. Qed.

Lemma trim_chars (s : string) (c : ascii) : In c (chars (trim s)) -> In c (chars s).
Proof.
  destruct (trim_spec s) as (a & b & Hs & _). intros Hin.
  rewrite Hs, !chars_app, !in_app_iff. auto.
Qed.

End TrimFacts.

(** ** Splitting, and the provider list *)

Section SplitFacts.

#[local] Arguments String.append !_ _ / : simpl nomatch.

Lemma split_cons (c : ascii) (s : string) :
  exists piece pieces, split c s = piece :: pieces.
Proof.
  destruct s as [|d s]; cbn [split]; [by eexists _, _|].
  destruct (Ascii.eqb d c); [by eexists _, _|].
  destruct (split c s); by eexists _, _.
Qed.

Lemma join_cons (sep x y : string) (l : list string) :
  join sep (x :: y :: l) = x +:+ sep +:+ join sep (y :: l).
Proof. done. Qed.

(** The pieces of a string, put together again with the separator between
    them, are the string. *)
Lemma join_split (c : ascii) (s : string) :
  join (String c "") (split c s) = s.
Proof.
  induction s as [|d s IH]; [done|]. cbn [split].
  destruct (split_cons c s) as (piece & pieces & Hsp). rewrite Hsp in *.
  destruct (Ascii.eqb_spec d c) as [->|Hne].
  - rewrite join_cons, IH. done.
  - destruct pieces as [|piece' pieces].
    + cbn [join] in *. by rewrite IH.
    + rewrite join_cons in *. by rewrite <- IH.
Qed.

(** No piece holds the separator. *)
Lemma split_no_separator (c : ascii) (s piece : string) :
  In piece (split c s) -> ~ In c (chars piece).
Proof.
  revert piece. induction s as [|d s IH]; intros piece.
  - intros [<-|[]]. by intros [].
  - cbn [split]. destruct (split_cons c s) as (p0 & pieces & Hsp). rewrite Hsp in *.
    destruct (Ascii.eqb_spec d c) as [->|Hne].
    + intros [<-|Hin]; [by intros []|by apply IH].
    + intros [<-|Hin].
      * intros [->|Hin]; [done|]. by apply (IH p0); [left|].
      * apply IH. by right.
Qed.

(** X8: the provider list parsed from a string holds, in order, the trimmed
    pieces between the commas that are not empty after trimming: no entry
    is empty, starts or ends with white space, or holds a comma; and the
    pieces, joined with commas, are the string. *)
Theorem parse_providers_entries (s : string) :
  (exists pieces,
     join "," pieces = s /\
     (forall piece, In piece pieces -> ~ In ","%char (chars piece)) /\
     parse_providers s = List.filter nonempty (map trim pieces)) /\
  (forall p, In p (parse_providers s) ->
     p <> "" /\ leading_space p = false /\ trailing_space p = false /\
     trim p = p /\ ~ In ","%char (chars p)).
Proof.
  split.
  - exists (split "," s). split; [apply join_split|]. split; [|done].
    intros piece. apply split_no_separator.
  - intros p Hin. unfold parse_providers in Hin.
    apply List.filter_In in Hin as [Hin Hne].
    apply in_map_iff in Hin as (piece & <- & Hpiece).
    destruct (trim_spec piece) as (a & b & _ & _ & _ & Hl & Ht).
    split; [by destruct (trim piece)|]. split; [done|]. split; [done|].
    split; [apply trim_idempotent|].
    intros Hc%trim_chars. by apply (split_no_separator "," s piece).
Qed.

Lemma whitespace_prefix_free (w w' : string) :
  In w whitespace -> In w' whitespace -> startsWith w w' = true -> w = w'.
Proof.
  assert (forallb (fun w => forallb (fun w' =>
            implb (startsWith w w') (String.eqb w w')) whitespace) whitespace = true)
    as Hall by by vm_compute.
  intros Hw Hw' Hsw. rewrite forallb_forall in Hall.
  specialize (Hall w Hw). rewrite forallb_forall in Hall.
  specialize (Hall w' Hw'). rewrite Hsw in Hall. by apply String.eqb_eq.
Qed.

Lemma startsWith_both (t w w' : string) :
  startsWith t w = true -> startsWith t w' = true ->
  startsWith w w' = true \/ startsWith w' w = true.
Proof.
  revert t w'. induction w as [|c w IH]; intros t w' Hw Hw'; [by right|].
  destruct w' as [|c' w']; [by left|].
  destruct t as [|d t]; [done|]. cbn [startsWith] in *.
  apply andb_prop in Hw as [->%Ascii.eqb_eq Hw].
  apply andb_prop in Hw' as [->%Ascii.eqb_eq Hw'].
  rewrite Ascii.eqb_refl. cbn [andb]. by eapply IH.
Qed.

(** White space is stripped to the last character. *)
Lemma strip_spaces (n : nat) (s : string) :
  spaces s -> (len s <= n)%nat -> strip whitespace n s = "".
Proof.
  intros Hs. revert n. induction Hs as [|w s Hw Hs IH]; intros n Hlen.
  - apply strip_id. apply find_existsb. by vm_compute.
  - pose proof whitespace_nonempty as Hne. rewrite Forall_forall in Hne.
    assert (nonempty w = true) as Hwne by by apply Hne, list_elem_of_In.
    destruct n as [|n]; [destruct w; [done|cbn in Hlen; lia]|].
    cbn [strip].
    destruct (List.find (startsWith (w +:+ s)) whitespace) as [w'|] eqn:Hfind.
    + apply List.find_some in Hfind as [Hw' Hsw].
      assert (w' = w) as ->.
      { destruct (startsWith_both _ _ _ (startsWith_app w s) Hsw) as [H1|H1];
          [symmetry|]; by apply whitespace_prefix_free. }
      rewrite drop_prefix. apply IH.
      pose proof (startsWith_len _ _ (startsWith_app w s)) as Hl.
      destruct (drop_spec (len w) (w +:+ s)) as (pre & Hpre & Hlpre).
      rewrite drop_prefix in Hpre.
      assert (len (w +:+ s) = len w + len s)%nat as Happ.
      { clear. unfold len. induction w; cbn; [done|]. by f_equal. }
      destruct w; [done|]. unfold len in *. cbn [String.length] in *. lia.
    + apply List.find_none with (x := w) in Hfind; [|done].
      by rewrite startsWith_app in Hfind.
Qed.

Lemma trim_spaces (s : string) : spaces s -> trim s = "".
Proof.
  intros Hs. unfold trim, trimStart. by rewrite (strip_spaces _ _ Hs).
Qed.

(** A provider list that holds nothing but commas and white space is
    empty. *)
Lemma parse_providers_blank (s : string) :
  (forall piece, In piece (split "," s) -> spaces piece) ->
  parse_providers s = [].
Proof.
  intros Hblank. unfold parse_providers.
  induction (split "," s) as [|piece pieces IH]; [done|].
  cbn [map List.filter].
  rewrite (trim_spaces piece) by (apply Hblank; by left).
  apply IH. intros. apply Hblank. by right.
Qed.

End SplitFacts.

(** ** The encoded query text *)

Section EncodingFacts.

#[local] Arguments String.append !_ _ / : simpl nomatch.

Lemma encodeURIComponent_cons (c : ascii) (s : string) :
  encodeURIComponent (String c s)
  = encodeURIComponent (String c "") +:+ encodeURIComponent s.
Proof. cbn [encodeURIComponent]. by destruct (uri_unreserved c). Qed.

Lemma encodeURIComponent_app (a b : string) :
  encodeURIComponent (a +:+ b) = encodeURIComponent a +:+ encodeURIComponent b.
Proof.
  induction a as [|c a IH]; [done|]. cbn [String.append].
  by rewrite (encodeURIComponent_cons c a), (encodeURIComponent_cons c (a +:+ b)),
    IH, app_assoc_str.
Qed.

Lemma encode_char_safe (c d : ascii) :
  In d (chars (encodeURIComponent (String c ""))) ->
  uri_unreserved d = true \/ d = "%"%char.
Proof.
  assert (forallb (fun d => uri_unreserved d || Ascii.eqb d "%")
            (chars (encodeURIComponent (String c ""))) = true) as Hall.
  { destruct c as [[] [] [] [] [] [] [] []]; by vm_compute. }
  rewrite forallb_forall in Hall. intros Hd%Hall.
  apply orb_prop in Hd as [Hd|Hd]; [by left|right]. by apply Ascii.eqb_eq.
Qed.

(** The encoded text is made of unreserved characters and [%] only. *)
Lemma encodeURIComponent_safe (s : string) (d : ascii) :
  In d (chars (encodeURIComponent s)) -> uri_unreserved d = true \/ d = "%"%char.
Proof.
  induction s as [|c s IH]; [done|].
  rewrite encodeURIComponent_cons, chars_app, in_app_iff.
  intros [Hd|Hd]; [by eapply encode_char_safe|by apply IH].
Qed.

Lemma hex_digit_code (n : N) :
  (n < 16)%N ->
  N_of_ascii (hex_digit n) = if (n <? 10)%N then (48 + n)%N else (55 + n)%N.
Proof.
  intros Hn. unfold hex_digit.
  destruct (n <? 10)%N; apply N_ascii_embedding; lia.
Qed.

Lemma hex_digit_inj (n m : N) :
  (n < 16)%N -> (m < 16)%N -> hex_digit n = hex_digit m -> n = m.
Proof.
  intros Hn Hm Heq. apply (f_equal N_of_ascii) in Heq.
  rewrite !hex_digit_code in Heq by done.
  destruct (N.ltb_spec n 10), (N.ltb_spec m 10); lia.
Qed.

Lemma encode_char_inj (c d : ascii) (x y : string) :
  encodeURIComponent (String c "") +:+ x = encodeURIComponent (String d "") +:+ y ->
  c = d /\ x = y.
Proof.
  cbn [encodeURIComponent].
  destruct (uri_unreserved c) eqn:Hc, (uri_unreserved d) eqn:Hd;
    cbn [String.append]; intros Heq.
  - by injection Heq as -> ->.
  - injection Heq as -> _. by vm_compute in Hc.
  - injection Heq as <- _. by vm_compute in Hd.
  - injection Heq as Hhi Hlo ->. split; [|done].
    pose proof (N_ascii_bounded c) as Hbc. pose proof (N_ascii_bounded d) as Hbd.
    apply hex_digit_inj in Hhi; [|apply N.Div0.div_lt_upper_bound; lia..].
    apply hex_digit_inj in Hlo; [|apply N.mod_lt; lia..].
    rewrite <- (ascii_N_embedding c), <- (ascii_N_embedding d). f_equal.
    rewrite (N.div_mod (N_of_ascii c) 16), (N.div_mod (N_of_ascii d) 16) by done.
    by rewrite Hhi, Hlo.
Qed.

(** Different texts have different encodings. *)
Lemma encodeURIComponent_inj (s t : string) :
  encodeURIComponent s = encodeURIComponent t -> s = t.
Proof.
  revert t. induction s as [|c s IH]; intros [|d t].
  - done.
  - cbn [encodeURIComponent]. by destruct (uri_unreserved d).
  - cbn [encodeURIComponent]. by destruct (uri_unreserved c).
  - rewrite (encodeURIComponent_cons c), (encodeURIComponent_cons d).
    intros [-> Hst]%encode_char_inj. f_equal. by apply IH.
Qed.

Lemma occurrences_char_app (a b : string) (d : ascii) :
  occurrences (a +:+ b) (String d "")
  = (occurrences a (String d "") + occurrences b (String d ""))%nat.
Proof.
  induction a as [|c a IH]; cbn [String.append].
  - cbn [occurrences startsWith]. lia.
  - cbn [occurrences startsWith]. rewrite IH. lia.
Qed.

Lemma occurrences_char_none (s : string) (d : ascii) :
  ~ In d (chars s) -> occurrences s (String d "") = 0%nat.
Proof.
  induction s as [|c s IH]; intros Hd; [done|].
  cbn [occurrences startsWith]. rewrite IH by (intros ?; apply Hd; by right).
  destruct (Ascii.eqb_spec d c) as [->|]; [|done]. destruct Hd. by left.
Qed.

Lemma replace_q_value_none (s r : string) :
  includes s "q=" = false -> replace_q_value s r = s.
Proof.
  induction s as [|c s IH]; [done|]. cbn [includes replace_q_value].
  intros [-> Hs]%orb_false_elim. by rewrite IH.
Qed.

(** X4: the address of the query shape has no delimiter that the identifier
    does not have: whatever the query text, a character that is neither
    unreserved nor [%] (such as [&], [=], [?], [#], [/] and the space)
    occurs in the address at most as often as in the identifier. *)
Theorem query_text_adds_no_delimiter (providerUrl q : string) (d : ascii) :
  uri_unreserved d = false -> d <> "%"%char ->
  (occurrences (urlToCall providerUrl q) (String d "")
   <= occurrences providerUrl (String d ""))%nat.
Proof.
  intros Hd Hp.
  assert (occurrences (encodeURIComponent q) (String d "") = 0%nat) as Henc.
  { apply occurrences_char_none. intros [Hu| ->]%encodeURIComponent_safe; [|done].
    by rewrite Hu in Hd. }
  unfold urlToCall.
  destruct (endsWith providerUrl "="); [rewrite occurrences_char_app; lia|].
  destruct (includes providerUrl "=q"); [|rewrite occurrences_char_app; lia].
  destruct (includes providerUrl "q=") eqn:Hinc.
  - destruct (replace_q_value_spec providerUrl ("q=" +:+ encodeURIComponent q) Hinc)
      as (pre & old & post & Hu & _ & _ & _ & ->).
    rewrite Hu. rewrite !occurrences_char_app, Henc. lia.
  - rewrite replace_q_value_none by done. lia.
Qed.

End EncodingFacts.

Section AddressFacts.
Context {Num : Type} {JN : JSNumber Num} {E : Env Num}.

#[local] Arguments String.append !_ _ / : simpl nomatch.

Lemma app_cancel_l (p a b : string) : p +:+ a = p +:+ b -> a = b.
Proof. induction p as [|c p IH]; cbn [String.append]; [done|]. intros [= ?]. auto. Qed.

Lemma app_cancel_r (p a b : string) : a +:+ p = b +:+ p -> a = b.
Proof.
  intros Heq. apply (f_equal String.rev) in Heq. rewrite !rev_app_distr in Heq.
  apply app_cancel_l in Heq. by rewrite <- (rev_involutive a), Heq, rev_involutive.
Qed.

Lemma replace_q_value_frame (s : string) :
  includes s "q=" = true ->
  exists pre post, forall r, replace_q_value s r = pre +:+ r +:+ post.
Proof.
  induction s as [|c s IH]; [done|]. intros Hinc. cbn [replace_q_value].
  destruct (startsWith (String c s) "q=") eqn:Hsw.
  - by exists "", (skip_value (drop 2 (String c s))).
  - cbn [includes] in Hinc. rewrite Hsw in Hinc.
    destruct (IH Hinc) as (pre & post & Hrep).
    exists (String c pre), post. intros r. by rewrite Hrep.
Qed.

(** X5: when the identifier ends with [=], or has no [=q], or has a [q=], the
    address that is called tells the query text; in the case that is left,
    an identifier with [=q] and without [q=] that does not end with [=],
    the address is the identifier itself, whatever the text. *)
Theorem address_tells_text (providerUrl : string) :
  (endsWith providerUrl "=" = true \/ includes providerUrl "=q" = false \/
   includes providerUrl "q=" = true ->
   forall q1 q2, urlToCall providerUrl q1 = urlToCall providerUrl q2 -> q1 = q2) /\
  (endsWith providerUrl "=" = false -> includes providerUrl "=q" = true ->
   includes providerUrl "q=" = false ->
   forall q, urlToCall providerUrl q = providerUrl).
Proof.
  unfold urlToCall. split.
  - intros Hcase q1 q2.
    destruct (endsWith providerUrl "=");
      [by intros ?%app_cancel_l%encodeURIComponent_inj|].
    destruct (includes providerUrl "=q");
      [|by intros ?%app_cancel_l%encodeURIComponent_inj].
    destruct Hcase as [|[|Hinc]]; [done..|].
    destruct (replace_q_value_frame providerUrl Hinc) as (pre & post & Hrep).
    rewrite !Hrep, !app_assoc_str.
    intros Heq%app_cancel_l%app_cancel_l%app_cancel_r.
    by apply encodeURIComponent_inj.
  - intros -> -> Hinc q. by apply replace_q_value_none.
Qed.

Lemma find_first {A} (f : A -> bool) (l : list A) :
  match List.find f l with
  | Some x => exists l1 l2, l = l1 ++ x :: l2 /\ f x = true /\
                            forall y, In y l1 -> f y = false
  | None => forall y, In y l -> f y = false
  end.
Proof.
  induction l as [|a l IH]; [by intros ? []|]. cbn [List.find].
  destruct (f a) eqn:Ha.
  - exists [], l. split; [done|]. split; [done|]. by intros ? [].
  - destruct (List.find f l) as [x|].
    + destruct IH as (l1 & l2 & -> & Hx & Hl1). exists (a :: l1), l2.
      split; [done|]. split; [done|]. by intros y [<-|Hy]; [|apply Hl1].
    + by intros y [<-|Hy]; [|apply IH].
Qed.

(** X1: the credential of a provider is the key of the first entry of the
    table, in its order, whose prefix the identifier starts with, however
    long the prefix is; there is none exactly when no prefix of the table
    starts the identifier. *)
Theorem credential_of_first_prefix (providerUrl : string) :
  match findKeyForProvider providerUrl with
  | Some key =>
      exists before prefix after,
        KEY_MAP = before ++ (prefix, key) :: after /\
        (exists rest, providerUrl = prefix +:+ rest) /\
        (forall prefix' key', In (prefix', key') before ->
           ~ exists rest, providerUrl = prefix' +:+ rest)
  | None =>
      forall prefix key, In (prefix, key) KEY_MAP ->
        ~ exists rest, providerUrl = prefix +:+ rest
  end.
Proof.
  unfold findKeyForProvider.
  pose proof (find_first (fun entry => startsWith providerUrl entry.1) KEY_MAP) as Hf.
  destruct (List.find _ KEY_MAP) as [[prefix key]|]; cbn [fmap option_fmap option_map snd].
  - destruct Hf as (before & after & Hk & Hsw & Hbefore).
    exists before, prefix, after. split; [done|]. split; [by apply startsWith_iff|].
    intros prefix' key' Hin Hpre%startsWith_iff.
    specialize (Hbefore _ Hin). cbn [fst] in Hbefore. congruence.
  - intros prefix key Hin Hpre%startsWith_iff.
    specialize (Hf _ Hin). cbn [fst] in Hf. congruence.
Qed.

Lemma shape_headers (providerUrl q : string) (file : option File) :
  exists base, headers (shapeRequest providerUrl q file) = with_key providerUrl base /\
    forall v, ~ In ("Authorization", v) base.
Proof.
  unfold shapeRequest.
  destruct file as [f|]; [destruct (includes providerUrl "image=")|];
    try destruct (looks_like_query providerUrl); eexists; (split; [done|]);
    intros v Hin; cbn in Hin; intuition discriminate.
Qed.

(** X2: whatever the shape, the request carries an [Authorization] header
    exactly when the provider has a credential that is not empty, and the
    header is [Bearer] followed by that credential: it depends on the
    identifier only, not on the text or the file. *)
Theorem authorization_header (providerUrl q : string) (file : option File) (v : string) :
  In ("Authorization", v) (headers (shapeRequest providerUrl q file)) <->
  exists key, findKeyForProvider providerUrl = Some key /\ key <> "" /\
              v = "Bearer " +:+ key.
Proof.
  destruct (shape_headers providerUrl q file) as (base & -> & Hbase).
  unfold with_key. destruct (findKeyForProvider providerUrl) as [key|].
  - destruct key as [|c key]; cbn [nonempty].
    + split; [by intros ?%Hbase|]. by intros (key & [= <-] & ? & _).
    + rewrite in_app_iff. split.
      * intros [?%Hbase|[[= <-]|[]]]; [done|]. by eexists.
      * intros (key' & [= <-] & _ & ->). right. by left.
  - split; [by intros ?%Hbase|]. by intros (key & [=] & _).
Qed.

(** X3: without [image=] in the identifier, or without a file, the request is
    the one of a call with no file: an attached file is not sent, and the
    body is empty (query shape) or the JSON object with the text. *)
Theorem file_sent_only_to_image_providers (providerUrl q : string) (file : option File) :
  wants_upload providerUrl file = false ->
  shapeRequest providerUrl q file = shapeRequest providerUrl q None /\
  (body (shapeRequest providerUrl q file) = NoBody \/
   body (shapeRequest providerUrl q file) = JsonBody (JObject [("q", JString q)])).
Proof.
  unfold wants_upload, shapeRequest. intros Hw.
  destruct file as [f|]; [rewrite Hw|];
    destruct (looks_like_query providerUrl); cbn; auto.
Qed.

End AddressFacts.

(** ** More on the provider caller *)

Section MoreCallerFacts.
Context {Num : Type} {JN : JSNumber Num} {E : Env Num}.


Lemma trace_no_attempt p r attempt evs out :
  attempts_trace p r attempt evs out ->
  ATTEMPTS <= attempt ->
  evs = [] /\ out = Failure "Max attempts reached".
Proof. inversion 1; subst; intros; try lia. done. Qed.

(** The time slept from the attempt [attempt] on, by the number of network
    calls. *)
Lemma trace_slept p r attempt evs out :
  attempts_trace p r attempt evs out ->
  attempt < ATTEMPTS ->
  let k := Z.of_nat (length (sent evs)) in
  slept evs = 100 * ((attempt + k - 1) * (attempt + k) - attempt * (attempt + 1)).
Proof.
  induction 1 as [|?|a e Ha|a e evs out Hlt Htr IH]; intros Hatt;
    unfold sent in *; cbn [List.filter is_sent length slept] in *.
  - lia.
  - lia.
  - lia.
  - rewrite IH by lia. unfold backoff. lia.
Qed.



End MoreCallerFacts.

(** ** More on the handler *)

Section MoreHandlerFacts.
Context {Num : Type} {JN : JSNumber Num} {E : Env Num}.

Lemma callProvider_budget p req file (st : State Num) :
  Z.of_nat (length (sent (callProvider p req file st).2)) <= Z.max 0 ATTEMPTS.
Proof.
  destruct (callProvider p req file st) as [[out st'] evs] eqn:Hrun.
  apply callProvider_run in Hrun as (evs' & -> & Htr & _).
  pose proof (trace_bound _ _ _ _ _ Htr) as Hb. cbn [snd].
  change (sent (Called p :: evs')) with (sent evs'). lia.
Qed.

Lemma failed_run_budget req ps (st st' : State Num) evs :
  failed_run req ps st st' evs ->
  Z.of_nat (length (sent evs)) <= Z.of_nat (length ps) * Z.max 0 ATTEMPTS.
Proof.
  induction 1 as [|p ps st out st1 evs1 st2 evs2 Hcall Hun Hrest IH]; [cbn; lia|].
  pose proof (callProvider_budget p req (req_file req) st) as Hb.
  rewrite Hcall in Hb. cbn [snd] in Hb.
  rewrite sent_app, length_app. cbn [length]. lia.
Qed.

Lemma provider_loop_budget ps req key (st : State Num) :
  Z.of_nat (length (sent (provider_loop ps req key st).2))
  <= Z.of_nat (length ps) * Z.max 0 ATTEMPTS /\
  exists rest, ps = invoked (provider_loop ps req key st).2 ++ rest.
Proof.
  destruct (provider_loop ps req key st) as [[resp st'] evs] eqn:Hrun. cbn [snd].
  apply provider_loop_run in Hrun as
    [(ps1 & p & ps2 & st1 & evs1 & data & st2 & evs2 &
       -> & Hfail & Hcall & _ & _ & _ & -> & ->)|(Hfail & _ & Hinv)].
  - split; [|exists ps2; by rewrite <- app_assoc].
    pose proof (failed_run_budget _ _ _ _ _ Hfail) as Hb1.
    pose proof (callProvider_budget p req (req_file req) st1) as Hb2.
    rewrite Hcall in Hb2. cbn [snd] in Hb2.
    rewrite sent_app, !length_app. cbn [length]. lia.
  - split; [by apply failed_run_budget in Hfail|].
    exists []. by rewrite Hinv, app_nil_r.
Qed.


Lemma has_input_test_iff req :
  negb (nonempty (query_text req)) && negb (bool_decide (is_Some (req_file req)))
  = false <-> has_input req.
Proof.
  split; [|apply has_input_test]. unfold has_input.
  destruct (nonempty (query_text req)); [by left|]. cbn [negb andb].
  intros Hf. right. apply negb_false_iff in Hf. by apply bool_decide_eq_true_1 in Hf.
Qed.

(** The ways through the handler. *)
Lemma chat_cases req (st st' : State Num) resp evs :
  chat req st = (resp, st', evs) ->
  let key := cacheKey (query_text req) in
  (~ has_input req /\ resp = Send 400 (JString "Missing q (query) or file.") /\
   st' = st /\ evs = []) \/
  (has_input req /\ truthy (cache_get key st).1.1 = true /\
   resp = Send 200 (cache_get key st).1.1 /\ st' = (cache_get key st).1.2 /\
   evs = []) \/
  (has_input req /\ truthy (cache_get key st).1.1 = false /\
   effective_providers req = [] /\
   resp = Send 500 (JString "No providers configured.") /\
   st' = (cache_get key st).1.2 /\ evs = []) \/
  (has_input req /\ truthy (cache_get key st).1.1 = false /\
   effective_providers req <> [] /\
   provider_loop (effective_providers req) req key (cache_get key st).1.2
   = (resp, st', evs)).
Proof.
  intros Hrun key. unfold chat in Hrun. fold key in Hrun.
  destruct (negb _ && negb _) eqn:Hin.
  - left. injection Hrun as <- <- <-. split; [|done].
    intros Hi%has_input_test. congruence.
  - right. apply has_input_test_iff in Hin. unfold bind at 1 in Hrun.
    assert ((cache_get key st).2 = []) as Hev.
    { unfold cache_get. destruct (cache st !! key) as [e|]; [|done].
      by destruct (expired e _). }
    destruct (cache_get key st) as [[cached st0] evs0]. cbn [fst snd] in *. subst evs0.
    destruct (truthy cached).
    + left. by injection Hrun as <- <- <-.
    + right. destruct (effective_providers req) as [|p ps] eqn:Hps.
      * left. by injection Hrun as <- <- <-.
      * right. cbn [length Nat.eqb] in Hrun.
        destruct (provider_loop (p :: ps) req key st0) as [[resp2 st2] evs2].
        by injection Hrun as <- <- <-.
Qed.


(** X11: a request costs at most [ATTEMPTS] network calls for each provider of
    its list, and the providers it invokes are the first ones of the list,
    in the order of the list. *)
Theorem request_budget req (st : State Num) :
  let evs := (chat req st).2 in
  Z.of_nat (length (sent evs))
  <= Z.of_nat (length (effective_providers req)) * Z.max 0 ATTEMPTS /\
  exists rest, effective_providers req = invoked evs ++ rest.
Proof.
  intros evs. subst evs.
  destruct (chat req st) as [[resp st'] evs] eqn:Hrun. cbn [snd].
  assert (evs = [] ->
    Z.of_nat (length (sent evs))
    <= Z.of_nat (length (effective_providers req)) * Z.max 0 ATTEMPTS /\
    exists rest, effective_providers req = invoked evs ++ rest) as Hquiet.
  { intros ->. cbn [sent List.filter length invoked]. split; [lia|by eexists]. }
  apply chat_cases in Hrun as
    [(_ & _ & _ & ?)|[(_ & _ & _ & _ & ?)|[(_ & _ & _ & _ & _ & ?)
    |(_ & _ & _ & Hloop)]]]; [by apply Hquiet..|].
  pose proof (provider_loop_budget (effective_providers req) req
                (cacheKey (query_text req))
                (cache_get (cacheKey (query_text req)) st).1.2) as Hb.
  by rewrite Hloop in Hb.
Qed.



(** X14: an entry whose time has passed is as good as no entry: a request with
    a text or a file runs as on the cache without it, so the entry is never
    returned, and it is gone afterwards unless the run stores a new one. *)
Theorem expired_entry_is_no_entry req (st : State Num) e :
  has_input req ->
  cache st !! cacheKey (query_text req) = Some e ->
  expired e (Date_now (world st)) = true ->
  chat req st = chat req (forget (cacheKey (query_text req)) st).
Proof.
  intros Hin He Hexp. unfold chat. rewrite (has_input_test _ Hin).
  set (key := cacheKey (query_text req)) in *.
  assert (cache_get key st = (JUndefined, forget key st, [])) as H1.
  { unfold cache_get. by rewrite He, Hexp. }
  assert (cache_get key (forget key st) = (JUndefined, forget key st, [])) as H2.
  { unfold cache_get, forget. cbn [cache]. by rewrite lookup_delete_eq. }
  unfold bind. by rewrite H1, H2.
Qed.

(** X9: a provider list given with the request that holds nothing but commas
    and white space does not fall back on the default list: on a miss the
    answer is that no provider is configured, and no provider is called. *)
Theorem blank_provider_list req (st : State Num) :
  has_input req ->
  truthy (cache_get (cacheKey (query_text req)) st).1.1 = false ->
  let customProviders := str_or (field (req_body req) field_providers)
                                (field (req_query req) field_providers) in
  customProviders <> "" ->
  (forall piece, In piece (split "," customProviders) -> spaces piece) ->
  (chat req st).1.1 = Send 500 (JString "No providers configured.") /\
  (chat req st).2 = [].
Proof.
  intros Hin Hmiss custom Hne Hblank.
  assert (effective_providers req = []) as Hps.
  { unfold effective_providers. fold custom.
    destruct custom; [done|]. cbn [nonempty]. by apply parse_providers_blank. }
  destruct (chat req st) as [[resp st'] evs] eqn:Hrun. cbn [fst snd].
  apply chat_cases in Hrun as
    [(? & _)|[(_ & Ht & _)|[(_ & _ & _ & -> & _ & ->)|(_ & _ & ? & _)]]];
    [done|congruence|done|done].
Qed.

End MoreHandlerFacts.

(** ** More on the first variant *)

Section FirstVariantFacts.
Context {Num : Type} {JN : JSNumber Num} {E : Env Num}.

Lemma refused_run_invoked req ps (st st' : State Num) evs :
  refused_run req ps st st' evs -> invoked evs = ps /\ cache st' = cache st.
Proof.
  induction 1 as [|p ps st err st1 evs1 st2 evs2 Hcall Hrest [IHi IHc]]; [done|].
  rewrite invoked_app, (callProvider_invoked _ _ _ _ _ _ _ Hcall), IHi.
  split; [done|]. rewrite IHc.
  by apply callProvider_run in Hcall as (? & _ & _ & ?).
Qed.

Lemma first_provider_loop_run ps req key (st st' : State Num) resp evs :
  FirstVariant.provider_loop ps req key st = (resp, st', evs) ->
  (exists ps1 p ps2 st1 evs1 data st2 evs2,
     ps = ps1 ++ p :: ps2 /\
     refused_run req ps1 st st1 evs1 /\
     callProvider p req (req_file req) st1 = (Success data, st2, evs2) /\
     resp = Json 200 (FirstVariant.answer_of p data) /\
     st' = (cache_set key (FirstVariant.answer_of p data) st2).1.2 /\
     evs = evs1 ++ evs2 /\
     invoked evs = ps1 ++ [p]) \/
  (refused_run req ps st st' evs /\
   resp = Json 502 (JObject [("error", JString "All providers failed.")]) /\
   invoked evs = ps).
Proof.
  revert st st' resp evs.
  induction ps as [|p ps IH]; intros st st' resp evs Hrun.
  - injection Hrun as <- <- <-. right. split; [constructor|done].
  - cbn [FirstVariant.provider_loop] in Hrun. unfold bind at 1 in Hrun.
    destruct (callProvider p req (req_file req) st) as [[[data|err] st1] evs1] eqn:Hcall.
    + unfold bind, cache_set, ret in Hrun. injection Hrun as <- <- <-.
      left. exists [], p, ps, st, [], data, st1, evs1. rewrite app_nil_r.
      repeat split; try done; try constructor.
      by eapply callProvider_invoked.
    + destruct (FirstVariant.provider_loop ps req key st1)
        as [[resp2 st2] evs2] eqn:Hrest.
      injection Hrun as <- <- <-.
      destruct (IH _ _ _ _ Hrest) as
        [(ps1 & p' & ps2 & st3 & evs3 & data & st4 & evs4 &
           -> & Hfail & Hcall' & -> & -> & -> & Hinv)|(Hfail & -> & Hinv)].
      * left. exists (p :: ps1), p', ps2, st3, (evs1 ++ evs3), data, st4, evs4.
        repeat split; try done.
        -- by eapply refused_cons.
        -- by rewrite app_assoc.
        -- rewrite invoked_app, Hinv.
           by rewrite (callProvider_invoked _ _ _ _ _ _ _ Hcall).
      * right. split; [by eapply refused_cons|]. split; [done|].
        rewrite invoked_app, Hinv.
        by rewrite (callProvider_invoked _ _ _ _ _ _ _ Hcall).
Qed.

(** X17: the first variant of the loop stops at the first provider whose call
    succeeds, whatever the payload is, an empty or falsy one included: the
    answer is the provider and the raw payload, and it is stored under the
    key; the providers before it were called once each, in order, and
    failed, and none after it is invoked.  When every call fails the answer
    is the failure of all providers, and nothing is stored. *)
Theorem first_variant_fallback ps req key (st : State Num) :
  match FirstVariant.provider_loop ps req key st with
  | (resp, st', evs) =>
      (exists ps1 p ps2 st1 evs1 data st2 evs2,
         ps = ps1 ++ p :: ps2 /\
         refused_run req ps1 st st1 evs1 /\
         callProvider p req (req_file req) st1 = (Success data, st2, evs2) /\
         resp = Json 200 (JObject [("provider", JString p); ("data", data)]) /\
         cache st' = <[key := {| entry_t := expiry (Date_now (world st'));
                                  entry_v := JObject [("provider", JString p);
                                                      ("data", data)] |}]> (cache st) /\
         evs = evs1 ++ evs2 /\
         invoked evs = ps1 ++ [p]) \/
      (refused_run req ps st st' evs /\
       resp = Json 502 (JObject [("error", JString "All providers failed.")]) /\
       invoked evs = ps /\ cache st' = cache st)
  end.
Proof.
  destruct (FirstVariant.provider_loop ps req key st) as [[resp st'] evs] eqn:Hrun.
  apply first_provider_loop_run in Hrun as
    [(ps1 & p & ps2 & st1 & evs1 & data & st2 & evs2 &
       -> & Hfail & Hcall & -> & -> & -> & Hinv)|(Hfail & -> & Hinv)].
  - left. exists ps1, p, ps2, st1, evs1, data, st2, evs2.
    repeat split; try done.
    apply refused_run_invoked in Hfail as [_ Hc1].
    apply callProvider_run in Hcall as (_ & _ & _ & Hc2).
    unfold cache_set. cbn [fst snd cache world]. by rewrite Hc2, Hc1.
  - right. repeat split; try done. by apply refused_run_invoked in Hfail as [_ ?].
Qed.

(** X18: in the first variant, after a 200 answer that a provider gave, a next
    request with the same text, on that cache and before the entry is
    gone, is answered from the cache with the same provider and the same
    payload, marked [fromCache], with no provider invoked. *)
Theorem first_variant_repeat req1 (st st1 : State Num) b evs1 :
  FirstVariant.chat req1 st = (Json 200 b, st1, evs1) ->
  invoked evs1 <> [] ->
  exists p data,
    b = JObject [("provider", JString p); ("data", data)] /\
    In p (effective_providers req1) /\
    forall req2 (st2 : State Num),
      has_input req2 ->
      query_text req2 = query_text req1 ->
      cache st2 = cache st1 ->
      expired {| entry_t := expiry (Date_now (world st1)); entry_v := b |}
              (Date_now (world st2)) = false ->
      FirstVariant.chat req2 st2
      = (Json 200 (JObject [("fromCache", JBool true); ("provider", JString p);
                            ("data", data)]), st2, []).
Proof.
  unfold FirstVariant.chat at 1. destruct (negb _ && negb _); [done|].
  unfold bind at 1. set (key := cacheKey (query_text req1)).
  assert ((cache_get key st).2 = []) as Hev.
  { unfold cache_get. destruct (cache st !! key) as [e|]; [|done].
    by destruct (expired e _). }
  destruct (cache_get key st) as [[cached st0] evs0]. cbn [snd] in Hev. subst evs0.
  destruct (truthy cached); [by intros [= <- <- <-]|].
  destruct (effective_providers req1) as [|p0 ps0] eqn:Hps; [done|].
  cbn [length Nat.eqb]. rewrite <- Hps.
  destruct (FirstVariant.provider_loop _ req1 key st0) as [[resp st2] evs2] eqn:Hrun.
  intros [= -> -> <-] _.
  apply first_provider_loop_run in Hrun as
    [(ps1 & p & ps2 & st3 & evs3 & data & st4 & evs4 &
       Hsplit & _ & _ & [= ->] & -> & _)|(_ & [=] & _)].
  exists p, data. split; [done|]. split.
  { rewrite Hsplit, in_app_iff. right. by left. }
  intros req2 st2 Hin Hq Hc Hexp.
  rewrite (first_chat_hit req2 st2
             {| entry_t := expiry (Date_now (world st4));
                entry_v := FirstVariant.answer_of p data |}); try done.
  rewrite Hq, Hc. unfold cache_set. cbn [fst snd cache]. apply lookup_insert_eq.
Qed.

End FirstVariantFacts.

(** ** The configuration *)

Section ConfigurationFacts.

#[local] Arguments String.append !_ _ / : simpl nomatch.

Lemma fold_pairs_other (l : list string) (m0 : gmap string string) (p : string) :
  (forall pair k, In pair l -> parse_pair pair <> Some (p, k)) ->
  foldl write_pair m0 l !! p = m0 !! p.
Proof.
  revert m0. induction l as [|pair l IH]; intros m0 Hno; [done|].
  cbn [foldl]. rewrite IH by (intros ? ? ?; apply Hno; by right).
  unfold write_pair. destruct (parse_pair pair) as [[p' k']|] eqn:Hp; [|done].
  destruct (String.eqb p' "__proto__"); [done|].
  destruct (decide (p' = p)) as [->|Hne].
  - by destruct (Hno pair k' (or_introl eq_refl)).
  - by rewrite lookup_insert_ne.
Qed.

Lemma fold_pairs_origin (l : list string) (m0 : gmap string string) (p k : string) :
  foldl write_pair m0 l !! p = Some k ->
  m0 !! p = Some k \/
  (p <> "__proto__" /\ exists pair, In pair l /\ parse_pair pair = Some (p, k)).
Proof.
  revert m0. induction l as [|pair l IH]; intros m0 Hk; [by left|].
  cbn [foldl] in Hk. apply IH in Hk as [Hk|(Hnp & pair' & Hin & Hp)].
  - unfold write_pair in Hk. destruct (parse_pair pair) as [[p' k']|] eqn:Hp; [|by left].
    destruct (String.eqb_spec p' "__proto__") as [|Hnp]; [by left|].
    destruct (decide (p' = p)) as [->|Hne].
    + rewrite lookup_insert_eq in Hk. injection Hk as ->. right. split; [done|].
      exists pair. by split; [left|].
    + rewrite lookup_insert_ne in Hk by done. by left.
  - right. split; [done|]. exists pair'. by split; [right|].
Qed.

Lemma parse_pair_trimmed (pair p k : string) :
  parse_pair pair = Some (p, k) ->
  trim p = p /\ trim k = k /\
  exists prefix key more,
    split "|" pair = prefix :: key :: more /\ prefix <> "" /\ key <> "" /\
    p = trim prefix /\ k = trim key.
Proof.
  unfold parse_pair. destruct (split "|" pair) as [|prefix [|key more]]; try done.
  destruct prefix as [|c prefix]; [done|]. destruct key as [|c' key]; [done|].
  cbn [nonempty andb]. intros [= <- <-].
  split; [apply trim_idempotent|]. split; [apply trim_idempotent|].
  by eexists _, _, _.
Qed.

Lemma split_whole (c : ascii) (s : string) :
  ~ In c (chars s) -> split c s = [s].
Proof.
  induction s as [|d s IH]; [done|]. intros Hc. cbn [split].
  destruct (Ascii.eqb_spec d c) as [->|Hne]; [destruct Hc; by left|].
  rewrite IH; [done|]. intros ?. apply Hc. by right.
Qed.

(** X10: the credential table after the parse.  Every prefix and every key in
    it is trimmed and comes from a pair [prefix|key] of the variable, both
    parts not empty; a pair without [|] gives no entry, and no pair gives
    an entry for [__proto__]; of the pairs with the same trimmed prefix the
    last one gives the key; and the table is empty when the variable is
    unset or empty. *)
Theorem key_map_entries (env : option string) :
  let pairs := split "," (default "" env) in
  (forall p k, parse_KEY_MAP env !! p = Some k ->
     trim p = p /\ trim k = k /\ p <> "__proto__" /\
     exists pair prefix key more,
       In pair pairs /\ split "|" pair = prefix :: key :: more /\
       prefix <> "" /\ key <> "" /\ p = trim prefix /\ k = trim key) /\
  (forall pair, ~ In "|"%char (chars pair) -> parse_pair pair = None) /\
  (forall before pair after p k,
     pairs = before ++ pair :: after ->
     parse_pair pair = Some (p, k) ->
     p <> "__proto__" ->
     (forall pair' k', In pair' after -> parse_pair pair' <> Some (p, k')) ->
     parse_KEY_MAP env !! p = Some k) /\
  (forall p, (forall pair k, In pair pairs -> parse_pair pair <> Some (p, k)) ->
     parse_KEY_MAP env !! p = None) /\
  (default "" env = "" -> parse_KEY_MAP env = ∅).
Proof.
  intros pairs. unfold parse_KEY_MAP. fold pairs. split; [|split; [|split; [|split]]].
  - intros p k Hk. destruct (nonempty (default "" env)); [|done].
    apply fold_pairs_origin in Hk as [Hk|(Hnp & pair & Hin & Hp)]; [done|].
    destruct (parse_pair_trimmed _ _ _ Hp) as (? & ? & prefix & key & more & ?).
    split; [done|]. split; [done|]. split; [done|].
    by exists pair, prefix, key, more.
  - intros pair Hno. unfold parse_pair. by rewrite split_whole.
  - intros before pair after p k Hpairs Hp Hnp Hafter.
    assert (nonempty (default "" env) = true) as ->.
    { destruct (default "" env) eqn:Henv; [|done]. subst pairs.
      cbn [split] in Hpairs. destruct before as [|? before].
      - injection Hpairs as <- _. by vm_compute in Hp.
      - injection Hpairs as _ Hnil. by destruct before. }
    rewrite Hpairs, foldl_app. cbn [foldl].
    rewrite fold_pairs_other by done. unfold write_pair at 1. rewrite Hp.
    destruct (String.eqb_spec p "__proto__"); [done|].
    apply lookup_insert_eq.
  - intros p Hno. destruct (nonempty (default "" env)); [|done].
    by rewrite fold_pairs_other.
  - by intros ->.
Qed.

End ConfigurationFacts.

(** ** The cache, written and read *)

Section CacheFacts.
Context {Num : Type} {JN : JSNumber Num} {E : Env Num}.

(** X15: what is stored is read back until its time has passed, and not after:
    with [t] the stamp of the entry, a lookup on the cache that [set]
    leaves returns the value, and changes nothing, when [t] is 0 or the
    clock is not past [t]; past [t] it returns [undefined] and the entry is
    gone.  The stamp is [CACHE_TTL] seconds after the time of [set], and 0
    when [CACHE_TTL] is 0. *)
Theorem cache_round_trip key (v : value Num) (st st2 : State Num) :
  cache st2 = cache (cache_set key v st).1.2 ->
  let t := expiry (Date_now (world st)) in
  (t = 0 \/ Date_now (world st2) <= t -> cache_get key st2 = (v, st2, [])) /\
  (t <> 0 -> t < Date_now (world st2) ->
     (cache_get key st2).1.1 = JUndefined /\
     cache (cache_get key st2).1.2 !! key = None) /\
  (CACHE_TTL <> 0 -> t = Date_now (world st) + CACHE_TTL * 1000) /\
  (CACHE_TTL = 0 -> t = 0).
Proof.
  intros Hc t. unfold cache_set in Hc. cbn [fst snd cache] in Hc.
  assert (cache st2 !! key = Some {| entry_t := t; entry_v := v |}) as He.
  { by rewrite Hc, lookup_insert_eq. }
  split; [|split; [|split]].
  - intros Hlive. rewrite (cache_get_hit _ _ _ He); [done|].
    unfold expired. cbn [entry_t].
    destruct Hlive as [-> |Hle]; [done|].
    destruct (t =? 0); [done|]. cbn [negb andb]. by apply Z.ltb_ge.
  - intros Hne Hlt. unfold cache_get. rewrite He.
    assert (expired {| entry_t := t; entry_v := v |} (Date_now (world st2)) = true)
      as ->.
    { unfold expired. cbn [entry_t].
      destruct (Z.eqb_spec t 0); [done|]. cbn [negb andb]. by apply Z.ltb_lt. }
    cbn [fst snd cache]. split; [done|]. apply lookup_delete_eq.
  - intros Hne. subst t. unfold expiry. by destruct (Z.eqb_spec CACHE_TTL 0).
  - intros Hz. subst t. unfold expiry. by rewrite Hz.
Qed.

End CacheFacts.

(** ** Statuses, sleep and failures *)

Section StatusFacts.
Context {Num : Type} {JN : JSNumber Num} {E : Env Num}.

#[local] Arguments String.append !_ _ / : simpl nomatch.


Lemma slept_app (a b : list (Event Num)) : slept (a ++ b) = slept a + slept b.
Proof.
  induction a as [|[] a IH]; cbn [app slept]; try done. rewrite IH. lia.
Qed.

Lemma callProvider_slept p req file (st : State Num) :
  0 <= slept (callProvider p req file st).2
  <= 100 * Z.max 0 ATTEMPTS * (Z.max 0 ATTEMPTS - 1).
Proof.
  destruct (callProvider p req file st) as [[out st'] evs] eqn:Hrun.
  apply callProvider_run in Hrun as (evs' & -> & Htr & _). cbn [snd slept].
  destruct (decide (0 < ATTEMPTS)) as [Hpos|Hneg].
  - rewrite (trace_slept _ _ _ _ _ Htr Hpos).
    pose proof (trace_bound _ _ _ _ _ Htr) as Hb. cbv zeta. nia.
  - destruct (trace_no_attempt _ _ _ _ _ Htr) as [-> _]; [lia|]. cbn [slept]. lia.
Qed.

Lemma failed_run_slept req ps (st st' : State Num) evs :
  failed_run req ps st st' evs ->
  0 <= slept evs
  <= Z.of_nat (length ps) * (100 * Z.max 0 ATTEMPTS * (Z.max 0 ATTEMPTS - 1)).
Proof.
  induction 1 as [|p ps st out st1 evs1 st2 evs2 Hcall Hun Hrest IH]; [cbn; lia|].
  pose proof (callProvider_slept p req (req_file req) st) as Hb.
  rewrite Hcall in Hb. cbn [snd] in Hb.
  rewrite slept_app. cbn [length]. nia.
Qed.

(** X20: the time a request sleeps between retries is at most
    [100 * A * (A - 1)] milliseconds for each provider of its list, with
    [A] the attempt count (0 when [ATTEMPTS] is negative). *)
Theorem request_sleep_budget req (st : State Num) :
  let A := Z.max 0 ATTEMPTS in
  0 <= slept (chat req st).2
  <= Z.of_nat (length (effective_providers req)) * (100 * A * (A - 1)).
Proof.
  intros A. subst A.
  destruct (chat req st) as [[resp st'] evs] eqn:Hrun. cbn [snd].
  assert (0 <= 100 * Z.max 0 ATTEMPTS * (Z.max 0 ATTEMPTS - 1)) as Hnn by nia.
  assert (evs = [] ->
    0 <= slept evs <= Z.of_nat (length (effective_providers req))
                      * (100 * Z.max 0 ATTEMPTS * (Z.max 0 ATTEMPTS - 1))) as Hquiet.
  { intros ->. cbn [slept]. nia. }
  apply chat_cases in Hrun as
    [(_ & _ & _ & ?)|[(_ & _ & _ & _ & ?)|[(_ & _ & _ & _ & _ & ?)
    |(_ & _ & _ & Hloop)]]]; [by apply Hquiet..|].
  apply provider_loop_run in Hloop as
    [(ps1 & p & ps2 & st1 & evs1 & data & st2 & evs2 &
       -> & Hfail & Hcall & _ & _ & _ & -> & _)|(Hfail & _)].
  - pose proof (failed_run_slept _ _ _ _ _ Hfail) as Hb1.
    pose proof (callProvider_slept p req (req_file req) st1) as Hb2.
    rewrite Hcall in Hb2. cbn [snd] in Hb2.
    rewrite slept_app, length_app. cbn [length]. nia.
  - by apply failed_run_slept in Hfail.
Qed.


(** X22: a pair of [KEY_MAP] whose prefix is white space only gives an
    entry with the empty prefix; and an entry with the empty prefix that
    comes first in the table is the credential of every provider. *)
Theorem blank_prefix_matches_every_provider :
  (forall pre key,
     spaces pre -> pre <> "" -> key <> "" -> ~ In "|"%char (chars key) ->
     parse_pair (pre +:+ "|" +:+ key) = Some ("", trim key)) /\
  (forall key rest providerUrl,
     KEY_MAP = ("", key) :: rest -> findKeyForProvider providerUrl = Some key).
Proof.
  split.
  - intros pre key Hsp Hpre Hkey Hbar.
    assert (~ In "|"%char (chars pre)) as Hnobar.
    { clear Hpre. induction Hsp as [|w s Hw Hs IH]; [by intros []|].
      rewrite chars_app, in_app_iff. intros [Hin|Hin]; [|done].
      assert (forallb (fun w => negb (existsb (Ascii.eqb "|") (chars w))) whitespace
              = true) as Hall by by vm_compute.
      rewrite forallb_forall in Hall. specialize (Hall w Hw).
      apply negb_true_iff in Hall.
      assert (existsb (Ascii.eqb "|") (chars w) = true); [|congruence].
      apply existsb_exists. exists "|"%char. by rewrite Ascii.eqb_refl. }
    assert (split "|" (pre +:+ String "|" key) = [pre; key]) as Hsplit.
    { clear Hsp Hpre. induction pre as [|c pre IH]; cbn [String.append split].
      - rewrite Ascii.eqb_refl. by rewrite split_whole.
      - destruct (Ascii.eqb_spec c "|") as [->|Hne]; [destruct Hnobar; by left|].
        rewrite IH; [done|]. intros ?. apply Hnobar. by right. }
    unfold parse_pair. change (pre +:+ "|" +:+ key) with (pre +:+ String "|" key).
    rewrite Hsplit.
    destruct pre; [done|]. destruct key; [done|]. cbn [nonempty andb].
    by rewrite (trim_spaces _ Hsp).
  - intros key rest providerUrl Hk. unfold findKeyForProvider. rewrite Hk.
    cbn [List.find fst]. by destruct providerUrl.
Qed.

End StatusFacts.

(** * The further properties on the concrete environment *)

Lemma parse_providers_example :
  parse_providers "  http://a/api , ,http://b/api?q=,  " = ["http://a/api"; "http://b/api?q="] /\
  parse_PROVIDERS None = [] /\
  parse_KEY_MAP (Some " http://a | k1 ,bad,http://b|k2|x,__proto__|k,http://a|k3")
  = {[ "http://a" := "k3"; "http://b" := "k2" ]}.
Proof. by vm_compute. Qed.

Lemma query_text_adds_no_delimiter_witness :
  (occurrences (urlToCall "http://x/?lang=en&q=" "a&b=c") "&"
   <= occurrences "http://x/?lang=en&q=" "&")%nat.
Proof.
  apply (query_text_adds_no_delimiter "http://x/?lang=en&q=" "a&b=c" "&");
    [reflexivity|discriminate].
Defined.

Lemma file_sent_only_to_image_providers_witness :
  shapeRequest (E := E_offline) "http://x/api" "hi" (Some Demo.photo)
  = shapeRequest (E := E_offline) "http://x/api" "hi" None.
Proof.
  apply (file_sent_only_to_image_providers (E := E_offline) "http://x/api" "hi"
           (Some Demo.photo)). reflexivity.
Defined.


Lemma expired_entry_is_no_entry_witness :
  chat (E := E_offline) (Demo.text_req "hi") stale
  = chat (E := E_offline) (Demo.text_req "hi") (forget "chat:hi" stale).
Proof.
  apply (expired_entry_is_no_entry (E := E_offline) (Demo.text_req "hi") stale
           {| entry_t := 31000; entry_v := JString "cached" |});
    [by left|by vm_compute|reflexivity].
Defined.

Lemma blank_provider_list_witness :
  PROVIDERS (Env := E_offline) = ["http://a/api"; "http://b/api"] /\
  (chat (E := E_offline) blank_list_req (Demo.start E_offline (0%nat, 1000))).1.1
  = Send 500 (JString "No providers configured.").
Proof.
  split; [reflexivity|].
  apply (blank_provider_list (E := E_offline) blank_list_req
           (Demo.start E_offline (0%nat, 1000))).
  - by left.
  - reflexivity.
  - discriminate.
  - intros piece Hin. vm_compute in Hin.
    assert (spaces " ") as Hsp.
    { apply (made_of_cons whitespace " " ""); [|constructor]. do 5 right. by left. }
    destruct Hin as [<-|[<-|[<-|[]]]]; [done|done|constructor].
Defined.

Lemma first_variant_repeat_witness :
  let first := FirstVariant.chat (E := E_once) (Demo.text_req "foo")
                 (Demo.start E_once (0%nat, 1000)) in
  FirstVariant.chat (E := E_once) (Demo.upload_req "foo") first.1.2
  = (Json 200 (JObject [("fromCache", JBool true);
                        ("provider", JString "http://a/api");
                        ("data", JString "pong")]), first.1.2, []).
Proof.
  intros first.
  destruct (first_variant_repeat (E := E_once) (Demo.text_req "foo")
              (Demo.start E_once (0%nat, 1000)) first.1.2
              (JObject [("provider", JString "http://a/api"); ("data", JString "pong")])
              first.2)
    as (p & data & Hb & _ & Hnext).
  - by vm_compute.
  - by vm_compute.
  - injection Hb as <- <-.
    apply Hnext; [by right; eexists|reflexivity|reflexivity|by vm_compute].
Defined.

Lemma cache_round_trip_witness :
  cache_get (E := E_offline) "chat:hi"
    (cache_set (E := E_offline) "chat:hi" (JString "a")
       (Demo.start E_offline (0%nat, 1000))).1.2
  = (JString "a",
     (cache_set (E := E_offline) "chat:hi" (JString "a")
        (Demo.start E_offline (0%nat, 1000))).1.2, []).
Proof.
  apply (cache_round_trip (E := E_offline) "chat:hi" (JString "a")
           (Demo.start E_offline (0%nat, 1000))); [reflexivity|].
  right. by vm_compute.
Defined.

Lemma chat_cache_ok_witness :
  cache_ok (chat (E := E_only_b) (Demo.text_req "hi")
              (Demo.start E_only_b (0%nat, 1000))).1.2.
Proof.
  apply (chat_cache_ok (E := E_only_b) (Demo.text_req "hi")
           (Demo.start E_only_b (0%nat, 1000))).
  intros k e Hk. cbn [Demo.start cache] in Hk. by rewrite lookup_empty in Hk.
Defined.

